(** * CPU fallback for operators without a backend kernel

    A shallow embedding of [aten/src/ATen/native/CPUFallback.cpp]:
    the helper [to_cpu] and the boxed fallback [cpu_fallback].

    Tensors are handles into a heap of tensor objects, the value stack is a
    list of tagged values addressed by position, and the code runs in a
    state-and-exception monad in which the state survives a thrown error, as
    it does for a C++ exception leaving a function that mutates through
    pointers.  The primitives the file calls but does not define
    ([at::_to_cpu], [at::_copy_from_and_resize], [Tensor::to] and
    [OperatorHandle::redispatchBoxed]) are the fields of a [Backend]. *)

From Stdlib Require Import ZArith String.
From stdpp Require Import base option list strings.

(** ** Data model *)

Inductive Device := CPU | Accelerator (index : nat).

#[global] Instance Device_eq_dec : EqDecision Device.
Proof. solve_decision. Defined.

(** A tensor value is a handle: undefined, or a reference to a tensor
    object.  Two handles are the same tensor exactly when they are equal. *)
Inductive Tensor := Undefined | TensorRef (impl : nat).

#[global] Instance Tensor_eq_dec : EqDecision Tensor.
Proof. solve_decision. Defined.

Definition defined (t : Tensor) : bool :=
  match t with Undefined => false | TensorRef _ => true end.

(** A tensor object carries its device, the identity of its storage and its
    sizes; the values live in the storage, which views share. *)
Record TensorImpl := {
  impl_device : Device;
  impl_storage : nat;
  impl_sizes : list nat
}.

Record Heap := {
  impls : list TensorImpl;
  storages : list (list Z)
}.

(** What the heap says about a tensor value: its object, and the device,
    storage, sizes and values of that object. *)
Definition tensor_impl (h : Heap) (t : Tensor) : option TensorImpl :=
  match t with
  | Undefined => None
  | TensorRef p => impls h !! p
  end.

Definition tensor_data (h : Heap) (t : Tensor) : option (list Z) :=
  match tensor_impl h t with
  | Some impl => storages h !! impl_storage impl
  | None => None
  end.




(** Modelled from the spec: the declaration of [c10::AliasInfo] is not part
    of the sources at hand.  An annotation is tagged Write or Read and names
    its alias set by the token fixed when the schema was parsed; two
    annotations are compared structurally. *)
Record AliasInfo := {
  isWrite : bool;
  alias_set : string
}.

#[global] Instance AliasInfo_eq_dec : EqDecision AliasInfo.
Proof. solve_decision. Defined.

Record Argument := {
  arg_name : string;
  alias_info : option AliasInfo
}.

Record FunctionSchema := {
  operator_name : string;
  arguments : list Argument;
  returns : list Argument
}.

Record OperatorHandle := { schema : FunctionSchema }.

(** The stack holds tagged values; the fallback looks at two tags only. *)
Inductive IValue :=
| IVNone
| IVInt (z : Z)
| IVTensor (t : Tensor)
| IVTensorList (ts : list Tensor).

Abbreviation Stack := (list IValue).

Inductive Error :=
| SchemaInconsistency (op : string) (ret : Argument)
    (* the TORCH_CHECK of the mutable alias case *)
| PrimitiveError (msg : string)
    (* raised inside a primitive of the backend *)
| NoDevice
    (* device() of a tensor that carries none *)
| OutOfBounds.
    (* an index past the end of a vector: undefined behaviour in the source *)

(** The advisory of the view case names the operator and the device. *)
Record Warning := {
  warn_operator : string;
  warn_device : Device
}.

(** The observable state: the caller's stack, the tensor heap, and two
    traces, the argument lists handed to [at::_to_cpu] and the warnings. *)
Record State := {
  stack : Stack;
  heap : Heap;
  transfers : list (list Tensor);
  warnings : list Warning
}.

Definition set_stack (stk : Stack) (s : State) : State :=
  {| stack := stk; heap := heap s; transfers := transfers s; warnings := warnings s |}.

Definition set_heap (h : Heap) (s : State) : State :=
  {| stack := stack s; heap := h; transfers := transfers s; warnings := warnings s |}.

(** ** The primitives supplied from outside the file *)

Record Backend := {
  at_to_cpu : list Tensor -> Heap -> (Error + list Tensor) * Heap;
  at_copy_from_and_resize : Tensor -> Tensor -> Heap -> (Error + unit) * Heap;
  tensor_to : Tensor -> Device -> Heap -> (Error + Tensor) * Heap;
  redispatchBoxed : OperatorHandle -> Stack -> Heap -> (Error + unit) * (Stack * Heap)
}.

(** ** State and exceptions *)

Definition M (A : Type) : Type := State -> (Error + A) * State.

Definition ret {A} (a : A) : M A := fun s => (inr a, s).

Definition throw {A} (e : Error) : M A := fun s => (inl e, s).

Definition bind {A B} (m : M A) (k : A -> M B) : M B :=
  fun s =>
    match m s with
    | (inr a, s') => k a s'
    | (inl e, s') => (inl e, s')
    end.

Notation "'let*' x ':=' m 'in' k" := (bind m (fun x => k))
  (at level 10, x name, m at level 100, k at level 200).

(** A [for] loop over the values of [l], threading the loop's variables. *)
Fixpoint foldM {A Acc} (f : Acc -> A -> M Acc) (acc : Acc) (l : list A) : M Acc :=
  match l with
  | [] => ret acc
  | x :: l' => let* acc' := f acc x in foldM f acc' l'
  end.

Definition forM {A} (l : list A) (f : A -> M unit) : M unit :=
  foldM (fun _ x => f x) tt l.

(** [v[i]] on a vector: past the end it is undefined behaviour. *)
Definition vec_at {A} (v : list A) (i : nat) : M A :=
  match v !! i with
  | Some x => ret x
  | None => throw OutOfBounds
  end.

(** Slot [i] of the stack, read and written. *)
Definition stack_at (i : nat) : M IValue :=
  fun s => vec_at (stack s) i s.

Definition stack_set (i : nat) (v : IValue) : M unit :=
  fun s =>
    if decide (i < length (stack s))
    then (inr tt, set_stack (<[i := v]> (stack s)) s)
    else (inl OutOfBounds, s).

(** [stack->size() - n], the start of the window [torch::jit::last(stack, n)];
    the window does not exist on a shorter stack. *)
Definition last_begin (n : nat) : M nat :=
  fun s =>
    if decide (n <= length (stack s))
    then (inr (length (stack s) - n), s)
    else (inl OutOfBounds, s).

(** Modelled from the spec: [Tensor::device()] is declared outside the
    sources at hand.  A defined tensor carries a device identity, an
    undefined one carries none. *)
Definition device (t : Tensor) : M Device :=
  fun s =>
    match t with
    | Undefined => (inl NoDevice, s)
    | TensorRef p =>
        match impls (heap s) !! p with
        | Some impl => (inr (impl_device impl), s)
        | None => (inl NoDevice, s)
        end
    end.

Definition warn (w : Warning) : M unit :=
  fun s =>
    (inr tt, {| stack := stack s; heap := heap s; transfers := transfers s;
                warnings := warnings s ++ [w] |}).

Section Fallback.

Context (B : Backend).

(** The call [at::_to_cpu(valid_tensors)], recorded in the trace. *)
Definition call_to_cpu (valid_tensors : list Tensor) : M (list Tensor) :=
  fun s =>
    let '(r, h) := at_to_cpu B valid_tensors (heap s) in
    (r, {| stack := stack s; heap := h;
           transfers := transfers s ++ [valid_tensors];
           warnings := warnings s |}).

Definition call_copy_from_and_resize (src dst : Tensor) : M unit :=
  fun s =>
    let '(r, h) := at_copy_from_and_resize B src dst (heap s) in
    (r, set_heap h s).

Definition call_to (t : Tensor) (d : Device) : M Tensor :=
  fun s =>
    let '(r, h) := tensor_to B t d (heap s) in
    (r, set_heap h s).

Definition call_redispatchBoxed (op : OperatorHandle) : M unit :=
  fun s =>
    let '(r, (stk, h)) := redispatchBoxed B op (stack s) (heap s) in
    (r, set_heap h (set_stack stk s)).

(** ** [to_cpu] *)

(** The first loop: undefined tensors go straight to their slot of
    [cpu_tensors], defined ones are collected in [valid_tensors] and marked
    in [to_translate]. *)
Fixpoint to_cpu_split (i : nat) (tensors : list Tensor)
    (acc : list Tensor * list Tensor * list bool)
    : list Tensor * list Tensor * list bool :=
  match tensors with
  | [] => acc
  | tensor :: rest =>
      let '(cpu_tensors, valid_tensors, to_translate) := acc in
      to_cpu_split (S i) rest
        (if defined tensor
         then (cpu_tensors, valid_tensors ++ [tensor], <[i := true]> to_translate)
         else (<[i := tensor]> cpu_tensors, valid_tensors, to_translate))
  end.

(** The second loop: slot [i], when marked, takes
    [cpu_valid_tensors[defined_pos++]]. *)
Fixpoint to_cpu_merge (i defined_pos : nat) (to_translate : list bool)
    (cpu_valid_tensors cpu_tensors : list Tensor) : Error + list Tensor :=
  match to_translate with
  | [] => inr cpu_tensors
  | marked :: rest =>
      if marked
      then match cpu_valid_tensors !! defined_pos with
           | Some t =>
               to_cpu_merge (S i) (S defined_pos) rest cpu_valid_tensors
                 (<[i := t]> cpu_tensors)
           | None => inl OutOfBounds
           end
      else to_cpu_merge (S i) defined_pos rest cpu_valid_tensors cpu_tensors
  end.

Definition to_cpu (tensors : list Tensor) : M (list Tensor) :=
  let n := length tensors in
  let '(cpu_tensors, valid_tensors, to_translate) :=
    to_cpu_split 0 tensors (replicate n Undefined, [], replicate n false) in
  let* cpu_valid_tensors := call_to_cpu valid_tensors in
  match to_cpu_merge 0 0 to_translate cpu_valid_tensors cpu_tensors with
  | inr r => ret r
  | inl e => throw e
  end.

(** ** [cpu_fallback] *)

(** The vectors [cpu_fallback] keeps across its four steps. *)
Record Relocation := {
  tensor_args : list Tensor;
  tensor_args_indices : list nat;
  cpu_tensors : list Tensor
}.

(** [alias_info.has_value() && alias_info.value().isWrite()] and
    [alias_info.has_value() && !alias_info.value().isWrite()]. *)
Definition is_write (a : option AliasInfo) : bool :=
  match a with Some ai => isWrite ai | None => false end.

Definition is_read (a : option AliasInfo) : bool :=
  match a with Some ai => negb (isWrite ai) | None => false end.

(** The body of the loop of step 1. *)
Definition relocate_argument (arguments_begin : nat)
    (acc : list Tensor * list nat) (idx : nat) : M (list Tensor * list nat) :=
  let* ivalue := stack_at (arguments_begin + idx) in
  match ivalue with
  | IVTensor t => ret (fst acc ++ [t], snd acc ++ [idx])
  | IVTensorList ts =>
      let* cpu_list := to_cpu ts in
      let* _ := stack_set (arguments_begin + idx) (IVTensorList cpu_list) in
      ret acc
  | _ => ret acc
  end.

(** Step 1: every tensor argument is replaced on the stack by a CPU tensor. *)
Definition relocate_inputs (op : OperatorHandle) : M Relocation :=
  let schema_args := arguments (schema op) in
  let num_arguments := length schema_args in
  let* arguments_begin := last_begin num_arguments in
  let* acc := foldM (relocate_argument arguments_begin) ([], []) (seq 0 num_arguments) in
  let tensor_args := fst acc in
  let tensor_args_indices := snd acc in
  let* cpu_tensors := to_cpu tensor_args in
  let* _ := forM (seq 0 (length tensor_args_indices)) (fun i =>
         let* idx := vec_at tensor_args_indices i in
         let* cpu_tensor := vec_at cpu_tensors i in
         stack_set (arguments_begin + idx) (IVTensor cpu_tensor)) in
  ret {| tensor_args := tensor_args;
         tensor_args_indices := tensor_args_indices;
         cpu_tensors := cpu_tensors |}.

(** Step 3: the data of a mutable alias input is copied back from its CPU
    tensor into the original tensor. *)
Definition copy_back_argument (op : OperatorHandle) (r : Relocation) (i : nat) : M unit :=
  let* tensor_idx := vec_at (tensor_args_indices r) i in
  let* schema_arg := vec_at (arguments (schema op)) tensor_idx in
  if is_write (alias_info schema_arg)
  then
    let* src := vec_at (cpu_tensors r) i in
    let* dst := vec_at (tensor_args r) i in
    call_copy_from_and_resize src dst
  else ret tt.

Definition copy_back (op : OperatorHandle) (r : Relocation) : M unit :=
  forM (seq 0 (length (tensor_args_indices r))) (copy_back_argument op r).

(** The search of the mutable alias case: the first [i] whose CPU tensor is
    defined and whose argument carries the annotation of the return. *)
Fixpoint find_alias (schema_args : list Argument) (r : Relocation)
    (ret_alias : option AliasInfo) (i : nat) (indices : list nat)
    : Error + option nat :=
  match indices with
  | [] => inr None
  | input_tensor_idx :: rest =>
      match cpu_tensors r !! i, schema_args !! input_tensor_idx with
      | Some input_tensor, Some schema_arg =>
          if defined input_tensor && bool_decide (ret_alias = alias_info schema_arg)
          then inr (Some i)
          else find_alias schema_args r ret_alias (S i) rest
      | _, _ => inl OutOfBounds
      end
  end.

(** [tensor_args[0]]. *)
Definition first_tensor_arg (r : Relocation) : M Tensor :=
  vec_at (tensor_args r) 0.

(** Case (2) of step 4: the CPU output is copied to the device of the first
    tensor argument. *)
Definition copy_to_device (r : Relocation) (returns_begin idx : nat)
    (return_tens : Tensor) : M unit :=
  let* first := first_tensor_arg r in
  let* tgt_device := device first in
  let* moved := call_to return_tens tgt_device in
  stack_set (returns_begin + idx) (IVTensor moved).

(** The body of the loop of step 4. *)
Definition resolve_return (op : OperatorHandle) (r : Relocation)
    (returns_begin idx : nat) : M unit :=
  let* ivalue := stack_at (returns_begin + idx) in
  match ivalue with
  | IVTensor return_tens =>
      if defined return_tens
      then
        let* schema_ret := vec_at (returns (schema op)) idx in
        let ret_alias := alias_info schema_ret in
        if is_write ret_alias
        then
          match find_alias (arguments (schema op)) r ret_alias 0
                  (tensor_args_indices r) with
          | inl e => throw e
          | inr (Some i) =>
              let* original := vec_at (tensor_args r) i in
              stack_set (returns_begin + idx) (IVTensor original)
          | inr None =>
              throw (SchemaInconsistency (operator_name (schema op)) schema_ret)
          end
        else
          let* _ := (if is_read ret_alias
                     then
                       let* first := first_tensor_arg r in
                       let* tgt_device := device first in
                       warn {| warn_operator := operator_name (schema op);
                               warn_device := tgt_device |}
                     else ret tt) in
          copy_to_device r returns_begin idx return_tens
      else ret tt
  | _ => ret tt
  end.

(** Step 4: every tensor output is moved back or replaced by the original
    input it aliases. *)
Definition resolve_returns_upto (op : OperatorHandle) (r : Relocation) (k : nat) : M unit :=
  let num_returns := length (returns (schema op)) in
  let* returns_begin := last_begin num_returns in
  forM (seq 0 k) (resolve_return op r returns_begin).

Definition resolve_returns (op : OperatorHandle) (r : Relocation) : M unit :=
  resolve_returns_upto op r (length (returns (schema op))).

Definition cpu_fallback (op : OperatorHandle) : M unit :=
  let* r := relocate_inputs op in
  let* _ := call_redispatchBoxed op in
  let* _ := copy_back op r in
  resolve_returns op r.

End Fallback.

(** ** Auxiliary notions used to state the results *)

(** The state [to_cpu] leaves once [at::_to_cpu] has returned heap [h]. *)
Definition after_transfer (valid_tensors : list Tensor) (h : Heap) (s : State) : State :=
  {| stack := stack s; heap := h;
     transfers := transfers s ++ [valid_tensors];
     warnings := warnings s |}.

Definition as_tensor (v : IValue) : option Tensor :=
  match v with IVTensor t => Some t | _ => None end.

(** The tensor-valued entries of an argument window whose first position is
    [idx], with their positions, in argument order. *)
Fixpoint gathered (idx : nat) (window : list IValue) : list Tensor * list nat :=
  match window with
  | [] => ([], [])
  | v :: rest =>
      match v with
      | IVTensor t => (t :: (gathered (S idx) rest).1, idx :: (gathered (S idx) rest).2)
      | _ => gathered (S idx) rest
      end
  end.

(** The test of the search loop on recorded argument [i]. *)
Definition alias_match (schema_args : list Argument) (r : Relocation)
    (ret_alias : option AliasInfo) (i : nat) : Prop :=
  exists k c schema_arg,
    tensor_args_indices r !! i = Some k
    /\ cpu_tensors r !! i = Some c
    /\ schema_args !! k = Some schema_arg
    /\ defined c = true
    /\ ret_alias = alias_info schema_arg.

(** The state after the copy case. *)
Definition after_copy (op : OperatorHandle) (schema_ret : Argument)
    (slot : nat) (moved : Tensor) (d : Device) (h : Heap) (s : State) : State :=
  {| stack := <[slot := IVTensor moved]> (stack s);
     heap := h;
     transfers := transfers s;
     warnings :=
       warnings s ++
       (if is_read (alias_info schema_ret)
        then [{| warn_operator := operator_name (schema op); warn_device := d |}]
        else []) |}.

(** The stacks of [s] and [s'] agree everywhere but at [slot]. *)
Definition same_but (slot : nat) (s s' : State) : Prop :=
  length (stack s') = length (stack s)
  /\ forall p, p <> slot -> stack s' !! p = stack s !! p.

(** The recorded arguments with a Write annotation, each as the pair of its
    CPU tensor and its original tensor, in argument order. *)
Fixpoint write_pairs (schema_args : list Argument) (indices : list nat)
    (cpus args : list Tensor) : list (Tensor * Tensor) :=
  match indices, cpus, args with
  | k :: indices', c :: cpus', a :: args' =>
      let rest := write_pairs schema_args indices' cpus' args' in
      match schema_args !! k with
      | Some schema_arg =>
          if is_write (alias_info schema_arg) then (c, a) :: rest else rest
      | None => rest
      end
  | _, _, _ => []
  end.

Definition recorded_write_pairs (op : OperatorHandle) (r : Relocation)
    : list (Tensor * Tensor) :=
  write_pairs (arguments (schema op)) (tensor_args_indices r)
    (cpu_tensors r) (tensor_args r).




(** The argument window of a call: the last values of the stack, as many as
    the schema has arguments. *)
Definition argument_window (op : OperatorHandle) (s : State) : list IValue :=
  drop (length (stack s) - length (arguments (schema op))) (stack s).

(** No slot of the return window holds a defined tensor whose return is not
    annotated Write. *)
Definition only_write_returns (op : OperatorHandle) (s : State) : Prop :=
  forall idx schema_ret t,
    returns (schema op) !! idx = Some schema_ret ->
    stack s !! (length (stack s) - length (returns (schema op)) + idx)
      = Some (IVTensor t) ->
    defined t = true ->
    is_write (alias_info schema_ret) = true.

Section Until.

Context (B : Backend).

(** The fallback run up to, and not including, the resolution of return
    [k]: steps 1 to 3, then the first [k] iterations of step 4. *)
Definition cpu_fallback_until (op : OperatorHandle) (k : nat) : M Relocation :=
  let* r := relocate_inputs B op in
  let* _ := call_redispatchBoxed B op in
  let* _ := copy_back B op r in
  let* _ := resolve_returns_upto B op r k in
  ret r.

End Until.

Section Prefixes.

Context (B : Backend).

(** Step 1 run up to, and not including, argument [k]: the window is
    located and the first [k] arguments are gathered or relocated. *)
Definition relocate_until (op : OperatorHandle) (k : nat)
    : M (nat * (list Tensor * list nat)) :=
  let* arguments_begin := last_begin (length (arguments (schema op))) in
  let* acc := foldM (relocate_argument B arguments_begin) ([], []) (seq 0 k) in
  ret (arguments_begin, acc).

(** Steps 1 and 2, then the first [k] iterations of step 3. *)
Definition cpu_fallback_copying (op : OperatorHandle) (k : nat) : M Relocation :=
  let* r := relocate_inputs B op in
  let* _ := call_redispatchBoxed B op in
  let* _ := forM (seq 0 k) (copy_back_argument B op r) in
  ret r.

End Prefixes.

(** ** A reference backend

    The transfer, copy and redispatch primitives are external to the sources
    at hand.  The definitions below follow what the spec says of them and
    give one backend on which the fallback can be run. *)

(** Modelled from the spec: a new tensor object on device [d] with a storage
    of its own holding [data]; allocation itself is not in the sources. *)
Definition alloc (d : Device) (sizes : list nat) (data : list Z) (h : Heap)
    : Tensor * Heap :=
  (TensorRef (length (impls h)),
   {| impls := impls h ++ [{| impl_device := d;
                              impl_storage := length (storages h);
                              impl_sizes := sizes |}];
      storages := storages h ++ [data] |}).

(** Modelled from the spec: [Tensor::to(device)] is not in the sources; it
    yields a copy of a tensor on the requested device. *)
Definition to_spec (t : Tensor) (d : Device) (h : Heap) : (Error + Tensor) * Heap :=
  match tensor_impl h t, tensor_data h t with
  | Some impl, Some data =>
      let '(t', h') := alloc d (impl_sizes impl) data h in (inr t', h')
  | _, _ => (inl (PrimitiveError "to: not a tensor"), h)
  end.

(** Modelled from the spec: [at::_to_cpu] is not in the sources; given a list
    of tensor values with no undefined entries it returns an equal-length
    list of host-resident tensors, in the same order. *)
Fixpoint to_cpu_spec (tensors : list Tensor) (h : Heap) : (Error + list Tensor) * Heap :=
  match tensors with
  | [] => (inr [], h)
  | t :: rest =>
      match to_spec t CPU h with
      | (inr t', h') =>
          match to_cpu_spec rest h' with
          | (inr ts, h'') => (inr (t' :: ts), h'')
          | (inl e, h'') => (inl e, h'')
          end
      | (inl e, h') => (inl e, h')
      end
  end.

(** Modelled from the spec: [at::_copy_from_and_resize] is not in the
    sources; it copies the data of a host tensor into a destination tensor,
    possibly on another device, resizing the destination if required. *)
Definition copy_from_and_resize_spec (src dst : Tensor) (h : Heap)
    : (Error + unit) * Heap :=
  match tensor_impl h src, tensor_data h src, dst, tensor_impl h dst with
  | Some simpl, Some data, TensorRef pd, Some dimpl =>
      if decide (impl_storage dimpl < length (storages h))
      then (inr tt,
            {| impls := <[pd := {| impl_device := impl_device dimpl;
                                   impl_storage := impl_storage dimpl;
                                   impl_sizes := impl_sizes simpl |}]> (impls h);
               storages := <[impl_storage dimpl := data]> (storages h) |})
      else (inl (PrimitiveError "copy: no storage"), h)
  | _, _, _, _ => (inl (PrimitiveError "copy: not a tensor"), h)
  end.

(** Modelled from the spec: the host reference kernels are not in the
    sources.  Host kernels for a handful of schemas, enough to run the fallback:
    [add_(Tensor(a!) self, Tensor other) -> Tensor(a!)] adds in place and
    returns [self]; [neg(Tensor self) -> Tensor] returns a new tensor;
    [view_as(Tensor(a) self, Tensor other) -> Tensor(a)] returns a new tensor
    object on the storage of [self]; [zeros(int n) -> Tensor] has no tensor
    argument; any other operator has no host kernel. *)
Definition host_kernel (op : OperatorHandle) (stk : Stack) (h : Heap)
    : (Error + unit) * (Stack * Heap) :=
  let name := operator_name (schema op) in
  let n := length (arguments (schema op)) in
  let args := drop (length stk - n) stk in
  let below := take (length stk - n) stk in
  match args with
  | [IVTensor self; IVTensor other] =>
      match tensor_impl h self, tensor_data h self, tensor_data h other with
      | Some simpl, Some x, Some y =>
          if decide (name = "add_"%string) then
            (inr tt,
             (below ++ [IVTensor self],
              {| impls := impls h;
                 storages := <[impl_storage simpl := zip_with Z.add x y]> (storages h) |}))
          else if decide (name = "view_as"%string) then
            (inr tt,
             (below ++ [IVTensor (TensorRef (length (impls h)))],
              {| impls := impls h ++ [{| impl_device := impl_device simpl;
                                         impl_storage := impl_storage simpl;
                                         impl_sizes := impl_sizes simpl |}];
                 storages := storages h |}))
          else (inl (PrimitiveError "no host kernel"), (stk, h))
      | _, _, _ => (inl (PrimitiveError "kernel: not a tensor"), (stk, h))
      end
  | [IVTensor self] =>
      match tensor_impl h self, tensor_data h self with
      | Some simpl, Some x =>
          if decide (name = "neg"%string) then
            let '(t, h') := alloc CPU (impl_sizes simpl) (Z.opp <$> x) h in
            (inr tt, (below ++ [IVTensor t], h'))
          else if decide (name = "neg_"%string) then
            (inr tt,
             (below ++ [IVTensor self],
              {| impls := impls h;
                 storages := <[impl_storage simpl := Z.opp <$> x]> (storages h) |}))
          else (inl (PrimitiveError "no host kernel"), (stk, h))
      | _, _ => (inl (PrimitiveError "kernel: not a tensor"), (stk, h))
      end
  | [IVInt z] =>
      if decide (name = "zeros"%string) then
        let '(t, h') := alloc CPU [Z.to_nat z] (replicate (Z.to_nat z) 0%Z) h in
        (inr tt, (below ++ [IVTensor t], h'))
      else (inl (PrimitiveError "no host kernel"), (stk, h))
  | _ => (inl (PrimitiveError "no host kernel"), (stk, h))
  end.

Definition reference_backend : Backend :=
  {| at_to_cpu := to_cpu_spec;
     at_copy_from_and_resize := copy_from_and_resize_spec;
     tensor_to := to_spec;
     redispatchBoxed := host_kernel |}.

(** A few concrete calls, used to exercise the definitions. *)

Definition write_a : option AliasInfo := Some {| isWrite := true; alias_set := "a" |}.
Definition write_b : option AliasInfo := Some {| isWrite := true; alias_set := "b" |}.
Definition read_a : option AliasInfo := Some {| isWrite := false; alias_set := "a" |}.

Definition mk_op (name : string) (args rets : list Argument) : OperatorHandle :=
  {| schema := {| operator_name := name; arguments := args; returns := rets |} |}.

(** [add_(Tensor(a!) self, Tensor other) -> Tensor(a!)] *)
Definition op_add_ : OperatorHandle :=
  mk_op "add_"
    [ {| arg_name := "self"; alias_info := write_a |};
      {| arg_name := "other"; alias_info := None |} ]
    [ {| arg_name := ""; alias_info := write_a |} ].

(** [view_as(Tensor(a) self, Tensor other) -> Tensor(a)] *)
Definition op_view_as : OperatorHandle :=
  mk_op "view_as"
    [ {| arg_name := "self"; alias_info := read_a |};
      {| arg_name := "other"; alias_info := None |} ]
    [ {| arg_name := ""; alias_info := read_a |} ].

(** [neg(Tensor self) -> Tensor] *)
Definition op_neg : OperatorHandle :=
  mk_op "neg"
    [ {| arg_name := "self"; alias_info := None |} ]
    [ {| arg_name := ""; alias_info := None |} ].

(** A malformed schema: [neg_(Tensor(a!) self) -> Tensor(b!)]. *)
Definition op_neg_bad : OperatorHandle :=
  mk_op "neg_"
    [ {| arg_name := "self"; alias_info := write_a |} ]
    [ {| arg_name := ""; alias_info := write_b |} ].

(** [zeros(int n) -> Tensor] *)
Definition op_zeros : OperatorHandle :=
  mk_op "zeros"
    [ {| arg_name := "n"; alias_info := None |} ]
    [ {| arg_name := ""; alias_info := None |} ].

(** Two tensors on an accelerator, with three values each. *)
Definition heap0 : Heap :=
  {| impls := [ {| impl_device := Accelerator 0; impl_storage := 0; impl_sizes := [3] |};
                {| impl_device := Accelerator 0; impl_storage := 1; impl_sizes := [3] |} ];
     storages := [ [1; 2; 3]%Z; [10; 20; 30]%Z ] |}.

Definition state0 (stk : Stack) : State :=
  {| stack := stk; heap := heap0; transfers := []; warnings := [] |}.

(** The calls used below: [add_], [view_as], [neg] and the malformed [neg_]
    on accelerator tensors, below one unrelated value on the stack. *)
Definition call_binary : State :=
  state0 [IVInt 7; IVTensor (TensorRef 0); IVTensor (TensorRef 1)].

Definition call_unary : State :=
  state0 [IVInt 7; IVTensor (TensorRef 0)].

(** [cat(Tensor[] tensors, int dim) -> Tensor] and
    [index_put_(Tensor(a!) self, Tensor[] indices, Tensor values) -> Tensor(a!)],
    two schemas with a tensor list argument. *)
Definition op_cat : OperatorHandle :=
  mk_op "cat"
    [ {| arg_name := "tensors"; alias_info := None |};
      {| arg_name := "dim"; alias_info := None |} ]
    [ {| arg_name := ""; alias_info := None |} ].


Definition call_cat : State :=
  state0 [IVInt 7; IVTensorList [TensorRef 0; Undefined; TensorRef 1]; IVInt 0].


(** [_foreach_neg_(Tensor(a!)[] self) -> ()], a schema whose only Write
    annotation sits on a tensor list. *)
Definition op_foreach_neg_ : OperatorHandle :=
  mk_op "_foreach_neg_" [ {| arg_name := "self"; alias_info := write_a |} ] [].

Definition call_foreach_neg_ : State :=
  state0 [IVInt 7; IVTensorList [TensorRef 0; TensorRef 1]].

(** Two backends whose [at::_to_cpu] breaks its contract: one returns one
    tensor too few, the other one tensor too many. *)
Definition truncating_backend : Backend :=
  {| at_to_cpu := fun tensors h =>
       match to_cpu_spec tensors h with
       | (inr ts, h') => (inr (take (length ts - 1) ts), h')
       | (inl e, h') => (inl e, h')
       end;
     at_copy_from_and_resize := copy_from_and_resize_spec;
     tensor_to := to_spec;
     redispatchBoxed := host_kernel |}.

Definition padding_backend : Backend :=
  {| at_to_cpu := fun tensors h =>
       match to_cpu_spec tensors h with
       | (inr ts, h') => (inr (ts ++ [TensorRef 0]), h')
       | (inl e, h') => (inl e, h')
       end;
     at_copy_from_and_resize := copy_from_and_resize_spec;
     tensor_to := to_spec;
     redispatchBoxed := host_kernel |}.

(** [numel(Tensor self) -> int] with a host kernel for it: a call whose
    result is no tensor. *)
Definition op_numel : OperatorHandle :=
  mk_op "numel"
    [ {| arg_name := "self"; alias_info := None |} ]
    [ {| arg_name := ""; alias_info := None |} ].

Definition numel_kernel (op : OperatorHandle) (stk : Stack) (h : Heap)
    : (Error + unit) * (Stack * Heap) :=
  match drop (length stk - 1) stk with
  | [IVTensor self] =>
      match tensor_data h self with
      | Some x =>
          (inr tt, (take (length stk - 1) stk ++ [IVInt (Z.of_nat (length x))], h))
      | None => (inl (PrimitiveError "kernel: not a tensor"), (stk, h))
      end
  | _ => (inl (PrimitiveError "no host kernel"), (stk, h))
  end.

Definition numel_backend : Backend :=
  {| at_to_cpu := to_cpu_spec;
     at_copy_from_and_resize := copy_from_and_resize_spec;
     tensor_to := to_spec;
     redispatchBoxed := numel_kernel |}.





(** Modelled from the spec: host kernels that are not in the sources, for
    two schemas whose first tensor argument is not used and may be
    undefined.  [view_second(Tensor other, Tensor(a) self) -> Tensor(a)]
    returns a new tensor object on the storage of [self];
    [neg_second(Tensor other, Tensor self) -> Tensor] returns a new tensor. *)
Definition op_view_second : OperatorHandle :=
  mk_op "view_second"
    [ {| arg_name := "other"; alias_info := None |};
      {| arg_name := "self"; alias_info := read_a |} ]
    [ {| arg_name := ""; alias_info := read_a |} ].


Definition second_kernel (op : OperatorHandle) (stk : Stack) (h : Heap)
    : (Error + unit) * (Stack * Heap) :=
  let name := operator_name (schema op) in
  let below := take (length stk - 2) stk in
  match drop (length stk - 2) stk with
  | [IVTensor other; IVTensor self] =>
      match tensor_impl h self, tensor_data h self with
      | Some simpl, Some x =>
          if decide (name = "view_second"%string) then
            (inr tt,
             (below ++ [IVTensor (TensorRef (length (impls h)))],
              {| impls := impls h ++ [{| impl_device := impl_device simpl;
                                         impl_storage := impl_storage simpl;
                                         impl_sizes := impl_sizes simpl |}];
                 storages := storages h |}))
          else if decide (name = "neg_second"%string) then
            let '(t, h') := alloc CPU (impl_sizes simpl) (Z.opp <$> x) h in
            (inr tt, (below ++ [IVTensor t], h'))
          else (inl (PrimitiveError "no host kernel"), (stk, h))
      | _, _ => (inl (PrimitiveError "kernel: not a tensor"), (stk, h))
      end
  | _ => (inl (PrimitiveError "no host kernel"), (stk, h))
  end.

Definition second_backend : Backend :=
  {| at_to_cpu := to_cpu_spec;
     at_copy_from_and_resize := copy_from_and_resize_spec;
     tensor_to := to_spec;
     redispatchBoxed := second_kernel |}.

(** A call whose first tensor argument is undefined. *)
Definition call_second : State :=
  state0 [IVInt 7; IVTensor Undefined; IVTensor (TensorRef 0)].

(** Backends in which one primitive fails. *)
Definition failing_transfer_backend : Backend :=
  {| at_to_cpu := fun _ h => (inl (PrimitiveError "transfer failed"), h);
     at_copy_from_and_resize := copy_from_and_resize_spec;
     tensor_to := to_spec;
     redispatchBoxed := host_kernel |}.

Definition failing_copy_backend : Backend :=
  {| at_to_cpu := to_cpu_spec;
     at_copy_from_and_resize := fun _ _ h => (inl (PrimitiveError "copy failed"), h);
     tensor_to := to_spec;
     redispatchBoxed := host_kernel |}.

Definition failing_to_backend : Backend :=
  {| at_to_cpu := to_cpu_spec;
     at_copy_from_and_resize := copy_from_and_resize_spec;
     tensor_to := fun _ _ h => (inl (PrimitiveError "to failed"), h);
     redispatchBoxed := host_kernel |}.

(** What step 1 records for the binary calls. *)
Definition relocation_binary : Relocation :=
  {| tensor_args := [TensorRef 0; TensorRef 1];
     tensor_args_indices := [0; 1];
     cpu_tensors := [TensorRef 2; TensorRef 3] |}.

(** ** Reasoning about the monad *)

Section MonadFacts.

Context {A C : Type}.

Lemma bind_inr (m : M A) (k : A -> M C) s a s' :
  m s = (inr a, s') -> bind m k s = k a s'.
Proof. intros H. unfold bind. now rewrite H. Qed.

Lemma bind_inl (m : M A) (k : A -> M C) s e s' :
  m s = (inl e, s') -> bind m k s = (inl e, s').
Proof. intros H. unfold bind. now rewrite H. Qed.

Lemma bind_inr_inv (m : M A) (k : A -> M C) s c s2 :
  bind m k s = (inr c, s2) ->
  exists a s1, m s = (inr a, s1) /\ k a s1 = (inr c, s2).
Proof.
  unfold bind. destruct (m s) as [[e|a] s1]; intros H; [discriminate|eauto].
Qed.

Lemma bind_inl_inv (m : M A) (k : A -> M C) s e s2 :
  bind m k s = (inl e, s2) ->
  m s = (inl e, s2) \/ exists a s1, m s = (inr a, s1) /\ k a s1 = (inl e, s2).
Proof.
  unfold bind. destruct (m s) as [[e'|a] s1]; intros H; [left|right; eauto].
  congruence.
Qed.

End MonadFacts.

Lemma foldM_app {A Acc} (f : Acc -> A -> M Acc) (l1 l2 : list A) acc s :
  foldM f acc (l1 ++ l2) s = bind (foldM f acc l1) (fun acc' => foldM f acc' l2) s.
Proof.
  revert acc s. induction l1 as [|x l1 IH]; intros acc s; simpl; [reflexivity|].
  unfold bind in *. destruct (f acc x s) as [[e|acc'] s1]; [reflexivity|].
  apply IH.
Qed.

Lemma forM_app {A} (f : A -> M unit) (l1 l2 : list A) s :
  forM (l1 ++ l2) f s = bind (forM l1 f) (fun _ => forM l2 f) s.
Proof.
  unfold forM. rewrite foldM_app. unfold bind.
  destruct (foldM _ tt l1 s) as [[e|[]] s1]; reflexivity.
Qed.

Lemma forM_cons {A} (f : A -> M unit) (x : A) (l : list A) s :
  forM (x :: l) f s = bind (f x) (fun _ => forM l f) s.
Proof.
  unfold forM. simpl. unfold bind. destruct (f x s) as [[e|[]] s1]; reflexivity.
Qed.


(** A loop keeps what each of its iterations keeps, on success and on
    failure alike. *)
Lemma foldM_preserves {A Acc} (P : State -> Prop) (f : Acc -> A -> M Acc) (l : list A) :
  (forall acc x s, P s -> P (f acc x s).2) ->
  forall acc s, P s -> P (foldM f acc l s).2.
Proof.
  intros Hf. induction l as [|x l IH]; intros acc s HP; simpl; [exact HP|].
  unfold bind. specialize (Hf acc x s HP).
  destruct (f acc x s) as [[e|acc'] s1]; simpl in *; [exact Hf|].
  now apply IH.
Qed.

(** ** Facts about [to_cpu] *)

Section ToCpuFacts.

Context (B : Backend).

Lemma to_cpu_split_spec (tensors : list Tensor) :
  forall (pre valid : list Tensor),
    to_cpu_split (length pre) tensors
      (replicate (length pre + length tensors) Undefined, valid,
       (defined <$> pre) ++ replicate (length tensors) false)
    = (replicate (length pre + length tensors) Undefined,
       valid ++ List.filter defined tensors,
       defined <$> (pre ++ tensors)).
Proof.
  induction tensors as [|t rest IH]; intros pre valid; simpl.
  - now rewrite !app_nil_r.
  - specialize (IH (pre ++ [t])).
    rewrite length_app in IH. simpl in IH.
    replace (length pre + 1 + length rest) with (length pre + S (length rest)) in IH by lia.
    replace (length pre + 1) with (S (length pre)) in IH by lia.
    rewrite <- (assoc_L (++) pre [t] rest) in IH. simpl in IH.
    destruct (defined t) eqn:Hd.
    + rewrite insert_app_r_alt by (rewrite length_fmap; lia).
      rewrite length_fmap, Nat.sub_diag. simpl.
      specialize (IH (valid ++ [t])).
      rewrite fmap_app in IH. simpl in IH. rewrite Hd in IH.
      rewrite <- (assoc_L (++)) in IH. simpl in IH.
      rewrite IH. now rewrite <- (assoc_L (++)).
    + destruct t; [|discriminate].
      rewrite list_insert_id by (apply lookup_replicate; split; [reflexivity|lia]).
      specialize (IH valid).
      rewrite fmap_app in IH. simpl in IH.
      rewrite <- (assoc_L (++)) in IH. simpl in IH.
      exact IH.
Qed.

Lemma to_cpu_split_full (tensors : list Tensor) :
  to_cpu_split 0 tensors
    (replicate (length tensors) Undefined, [], replicate (length tensors) false)
  = (replicate (length tensors) Undefined, List.filter defined tensors,
     defined <$> tensors).
Proof. exact (to_cpu_split_spec tensors [] []). Qed.

(** What the second loop leaves in each slot, when it ends normally. *)
Lemma to_cpu_merge_inv (tensors : list Tensor) :
  forall i pos cv cpu r,
    to_cpu_merge i pos (defined <$> tensors) cv cpu = inr r ->
    i + length tensors <= length cpu ->
    length r = length cpu
    /\ (forall j, j < i -> r !! j = cpu !! j)
    /\ (forall j, i + length tensors <= j -> r !! j = cpu !! j)
    /\ (forall j t, tensors !! j = Some t ->
          r !! (i + j) =
            if defined t
            then cv !! (pos + length (List.filter defined (take j tensors)))
            else cpu !! (i + j)).
Proof.
  induction tensors as [|t rest IH]; intros i pos cv cpu r Hm Hlen; simpl in *.
  - inversion Hm; subst. repeat split; try done.
  - destruct (defined t) eqn:Hd.
    + destruct (cv !! pos) as [c|] eqn:Hc; [|discriminate].
      apply IH in Hm; [|rewrite length_insert; lia].
      destruct Hm as (Hl & Hlt & Hge & Hat).
      rewrite length_insert in Hl.
      split; [exact Hl|]. split; [|split].
      * intros j Hj. rewrite Hlt by lia. apply list_lookup_insert_ne. lia.
      * intros j Hj. rewrite Hge by lia. apply list_lookup_insert_ne. lia.
      * intros [|j] t' Ht'; simpl in Ht'.
        -- inversion Ht'; subst t'. rewrite Hd. simpl.
           rewrite Nat.add_0_r. rewrite Hlt by lia.
           rewrite list_lookup_insert_eq by lia. now rewrite Nat.add_0_r.
        -- specialize (Hat j t' Ht').
           replace (i + S j) with (S i + j) by lia. rewrite Hat.
           simpl. rewrite Hd. simpl.
           destruct (defined t').
           ++ f_equal. lia.
           ++ apply list_lookup_insert_ne. lia.
    + apply IH in Hm; [|lia].
      destruct Hm as (Hl & Hlt & Hge & Hat).
      split; [exact Hl|]. split; [|split].
      * intros j Hj. apply Hlt. lia.
      * intros j Hj. apply Hge. lia.
      * intros [|j] t' Ht'; simpl in Ht'.
        -- inversion Ht'; subst t'. rewrite Hd. apply Hlt. lia.
        -- specialize (Hat j t' Ht').
           replace (i + S j) with (S i + j) by lia. rewrite Hat.
           simpl. rewrite Hd. reflexivity.
Qed.

(** The second loop ends normally when [at::_to_cpu] returned enough. *)
Lemma to_cpu_merge_total (tensors : list Tensor) :
  forall i pos cv cpu,
    pos + length (List.filter defined tensors) <= length cv ->
    exists r, to_cpu_merge i pos (defined <$> tensors) cv cpu = inr r.
Proof.
  induction tensors as [|t rest IH]; intros i pos cv cpu Hlen; simpl in *.
  - eauto.
  - destruct (defined t) eqn:Hd; simpl in Hlen.
    + destruct (lookup_lt_is_Some_2 cv pos) as [c Hc]; [lia|].
      rewrite Hc. apply IH. lia.
    + apply IH. lia.
Qed.

End ToCpuFacts.

Section ToCpu.

Context (B : Backend).

Lemma to_cpu_unfold (tensors : list Tensor) (s : State) :
  to_cpu B tensors s =
  bind (call_to_cpu B (List.filter defined tensors))
    (fun cv =>
       match to_cpu_merge 0 0 (defined <$> tensors) cv
               (replicate (length tensors) Undefined) with
       | inr r => ret r
       | inl e => throw e
       end) s.
Proof. unfold to_cpu. now rewrite to_cpu_split_full. Qed.

Lemma call_to_cpu_eq (valid : list Tensor) (s : State) :
  call_to_cpu B valid s =
  ((at_to_cpu B valid (heap s)).1, after_transfer valid (at_to_cpu B valid (heap s)).2 s).
Proof. unfold call_to_cpu. now destruct (at_to_cpu B valid (heap s)). Qed.

(** Whatever happens, [to_cpu] calls the primitive once, on the defined
    entries, and touches neither the stack nor the warnings. *)
Lemma to_cpu_frame (tensors : list Tensor) (s : State) :
  (to_cpu B tensors s).2 =
  after_transfer (List.filter defined tensors)
    (at_to_cpu B (List.filter defined tensors) (heap s)).2 s.
Proof.
  rewrite to_cpu_unfold. unfold bind. rewrite call_to_cpu_eq.
  destruct (at_to_cpu B _ (heap s)) as [[e|cv] h]; simpl; [reflexivity|].
  now destruct (to_cpu_merge _ _ _ _ _).
Qed.

Lemma to_cpu_inr_inv (tensors : list Tensor) (s s' : State) (r : list Tensor) :
  to_cpu B tensors s = (inr r, s') ->
  exists cv h,
    at_to_cpu B (List.filter defined tensors) (heap s) = (inr cv, h)
    /\ s' = after_transfer (List.filter defined tensors) h s
    /\ length r = length tensors
    /\ (forall j t, tensors !! j = Some t ->
          r !! j =
            if defined t
            then cv !! length (List.filter defined (take j tensors))
            else Some Undefined).
Proof.
  rewrite to_cpu_unfold. unfold bind. rewrite call_to_cpu_eq.
  destruct (at_to_cpu B _ (heap s)) as [[e|cv] h]; simpl; [discriminate|].
  destruct (to_cpu_merge _ _ _ _ _) as [e|r'] eqn:Hm; [discriminate|].
  unfold ret. intros H. inversion H; subst r' s'. clear H.
  apply to_cpu_merge_inv in Hm; [|rewrite length_replicate; simpl; lia].
  destruct Hm as (Hl & _ & _ & Hat). rewrite length_replicate in Hl.
  exists cv, h. repeat split; try done.
  intros j t Ht. specialize (Hat j t Ht). simpl in Hat. rewrite Hat.
  destruct (defined t); [reflexivity|].
  apply lookup_replicate. split; [reflexivity|]. now apply lookup_lt_Some in Ht.
Qed.

(** A relocated entry is defined only where the input entry was. *)
Lemma to_cpu_defined (tensors : list Tensor) (s s' : State) (r : list Tensor) :
  to_cpu B tensors s = (inr r, s') ->
  forall j t c, tensors !! j = Some t -> r !! j = Some c ->
    defined c = true -> defined t = true.
Proof.
  intros H j t c Ht Hc Hd.
  apply to_cpu_inr_inv in H. destruct H as (cv & h & _ & _ & _ & Hat).
  specialize (Hat j t Ht). destruct (defined t); [reflexivity|].
  rewrite Hat in Hc. inversion Hc; subst c. discriminate.
Qed.

Lemma to_cpu_merge_all_undefined (tensors : list Tensor) :
  Forall (fun t => defined t = false) tensors ->
  forall i pos cv cpu,
    to_cpu_merge i pos (defined <$> tensors) cv cpu = inr cpu.
Proof.
  induction 1 as [|t rest Ht _ IH]; intros i pos cv cpu; simpl; [reflexivity|].
  rewrite Ht. apply IH.
Qed.

Lemma filter_all_undefined (tensors : list Tensor) :
  Forall (fun t => defined t = false) tensors ->
  List.filter defined tensors = [] /\ tensors = replicate (length tensors) Undefined.
Proof.
  induction 1 as [|t rest Ht _ [IH1 IH2]]; simpl; [done|].
  rewrite Ht. split; [exact IH1|]. destruct t; [|discriminate]. now f_equal.
Qed.

(** C4.  For every list of tensor values, once [at::_to_cpu] has returned
    as many tensors as it was given, [to_cpu] returns a list of the same
    length in which slot [i] holds, for a defined entry, the transferred
    tensor whose rank is the number of defined entries before [i], and for
    an undefined entry that entry itself.  The primitive is called once, on
    the defined entries alone, in their order. *)
Theorem to_cpu_relocates_defined_entries
    (tensors : list Tensor) (s : State) (out : list Tensor) (h : Heap) :
  at_to_cpu B (List.filter defined tensors) (heap s) = (inr out, h) ->
  length out = length (List.filter defined tensors) ->
  exists r,
    to_cpu B tensors s
      = (inr r, after_transfer (List.filter defined tensors) h s)
    /\ length r = length tensors
    /\ (forall i t, tensors !! i = Some t ->
          r !! i =
            if defined t
            then out !! length (List.filter defined (take i tensors))
            else Some t)
    /\ Forall (fun t => defined t = true) (List.filter defined tensors)
    /\ (forall i t, tensors !! i = Some t -> defined t = true ->
          exists c, r !! i = Some c /\ c ∈ out).
Proof.
  intros Hprim Hlen.
  destruct (to_cpu_merge_total tensors 0 0 out (replicate (length tensors) Undefined))
    as [r Hm]; [simpl; lia|].
  assert (Hrun : to_cpu B tensors s
                 = (inr r, after_transfer (List.filter defined tensors) h s)).
  { rewrite to_cpu_unfold. unfold bind. rewrite call_to_cpu_eq, Hprim. simpl.
    now rewrite Hm. }
  exists r. split; [exact Hrun|].
  destruct (to_cpu_inr_inv _ _ _ _ Hrun) as (cv & h' & Hprim' & _ & Hl & Hat).
  rewrite Hprim in Hprim'. inversion Hprim'; subst cv h'. clear Hprim'.
  assert (Hslot : forall i t, tensors !! i = Some t ->
            r !! i = if defined t
                     then out !! length (List.filter defined (take i tensors))
                     else Some t).
  { intros i t Ht. rewrite (Hat i t Ht).
    destruct t; simpl; reflexivity. }
  split; [exact Hl|]. split; [exact Hslot|]. split.
  - apply Forall_forall. intros t Ht.
    apply list_elem_of_In, filter_In in Ht. tauto.
  - intros i t Ht Hd. specialize (Hslot i t Ht). rewrite Hd in Hslot.
    assert (Hrank : length (List.filter defined (take i tensors)) < length out).
    { rewrite Hlen.
      rewrite <- (take_drop i tensors) at 2.
      rewrite List.filter_app, length_app.
      rewrite (drop_S _ _ _ Ht). simpl. rewrite Hd. simpl. lia. }
    destruct (lookup_lt_is_Some_2 _ _ Hrank) as [c Hc].
    exists c. split; [congruence|]. eapply list_elem_of_lookup_2, Hc.
Qed.

(** C5, as the code has it.  For every list without a defined entry,
    [to_cpu] still calls [at::_to_cpu], exactly once and on the empty list:
    no tensor is handed over.  When that call returns, the result of
    [to_cpu] is the input list itself. *)
Theorem to_cpu_without_defined_entry (tensors : list Tensor) (s : State) :
  Forall (fun t => defined t = false) tensors ->
  transfers (to_cpu B tensors s).2 = transfers s ++ [[]]
  /\ (forall out h, at_to_cpu B [] (heap s) = (inr out, h) ->
        to_cpu B tensors s = (inr tensors, after_transfer [] h s)).
Proof.
  intros Hall. destruct (filter_all_undefined tensors Hall) as [Hf Hrep].
  split.
  - rewrite to_cpu_frame, Hf. reflexivity.
  - intros out h Hprim.
    rewrite to_cpu_unfold. unfold bind. rewrite call_to_cpu_eq, Hf, Hprim. simpl.
    rewrite (to_cpu_merge_all_undefined tensors Hall). unfold ret.
    now rewrite <- Hrep.
Qed.

End ToCpu.

(** ** Facts about step 1 *)

Lemma gathered_length (window : list IValue) :
  forall idx, length (gathered idx window).1 = length (gathered idx window).2.
Proof.
  induction window as [|v rest IH]; intros idx; simpl; [reflexivity|].
  destruct v; simpl; auto.
Qed.

Lemma gathered_lookup (window : list IValue) :
  forall idx i k,
    (gathered idx window).2 !! i = Some k ->
    idx <= k /\ exists t,
      window !! (k - idx) = Some (IVTensor t)
      /\ (gathered idx window).1 !! i = Some t.
Proof.
  induction window as [|v rest IH]; intros idx i k; simpl; [done|].
  assert (Hrest : (gathered (S idx) rest).2 !! i = Some k ->
            idx <= k /\ exists t, (v :: rest) !! (k - idx) = Some (IVTensor t)
              /\ (gathered (S idx) rest).1 !! i = Some t).
  { intros H. apply IH in H. destruct H as (Hle & t & Hw & Ht).
    split; [lia|]. exists t. split; [|exact Ht].
    replace (k - idx) with (S (k - S idx)) by lia. exact Hw. }
  destruct v; simpl; try exact Hrest.
  destruct i as [|i]; simpl.
  - intros H. inversion H; subst k. split; [lia|]. exists t.
    now rewrite Nat.sub_diag.
  - intros H. apply IH in H. destruct H as (Hle & t' & Hw & Ht).
    split; [lia|]. exists t'. split; [|exact Ht].
    replace (k - idx) with (S (k - S idx)) by lia. exact Hw.
Qed.

Lemma gathered_complete (window : list IValue) :
  forall idx j t,
    window !! j = Some (IVTensor t) ->
    exists i, (gathered idx window).2 !! i = Some (idx + j)
              /\ (gathered idx window).1 !! i = Some t.
Proof.
  induction window as [|v rest IH]; intros idx j t; simpl; [done|].
  destruct j as [|j]; simpl.
  - intros H. inversion H; subst v. exists 0. simpl. now rewrite Nat.add_0_r.
  - intros H. destruct (IH (S idx) j t H) as (i & Hi & Ht).
    replace (idx + S j) with (S idx + j) by lia.
    destruct v; simpl; eauto. exists (S i). simpl. eauto.
Qed.


Lemma gathered_nil (window : list IValue) :
  forall idx,
    (gathered idx window).1 = [] <->
    (forall j v, window !! j = Some v -> as_tensor v = None).
Proof.
  induction window as [|v rest IH]; intros idx; simpl; [done|].
  split.
  - intros H [|j] v' Hv'; simpl in Hv'.
    + inversion Hv'; subst v'. destruct v; try reflexivity. discriminate.
    + destruct v; simpl in H; try discriminate;
        eapply (proj1 (IH (S idx))); eauto.
  - intros H. pose proof (H 0 v eq_refl) as Hv.
    destruct v; try discriminate;
      apply IH; intros j v' Hv'; apply (H (S j) v' Hv').
Qed.

Section RelocateFacts.

Context (B : Backend).

Lemma last_begin_inr (n : nat) (s s' : State) (b : nat) :
  last_begin n s = (inr b, s') ->
  s' = s /\ n <= length (stack s) /\ b = length (stack s) - n.
Proof.
  unfold last_begin. destruct (decide _); intros H; inversion H; subst; auto.
Qed.

Lemma stack_set_inr (i : nat) (v : IValue) (s s' : State) :
  stack_set i v s = (inr tt, s') ->
  i < length (stack s) /\ s' = set_stack (<[i := v]> (stack s)) s.
Proof.
  unfold stack_set. destruct (decide _); intros H; inversion H; subst; auto.
Qed.

Lemma vec_at_inr {A} (v : list A) (i : nat) (x : A) (s s' : State) :
  vec_at v i s = (inr x, s') -> v !! i = Some x /\ s' = s.
Proof.
  unfold vec_at. destruct (v !! i); unfold ret, throw; intros H;
    inversion H; subst; auto.
Qed.

Lemma vec_at_Some {A} (v : list A) (i : nat) (x : A) (s : State) :
  v !! i = Some x -> vec_at v i s = (inr x, s).
Proof. unfold vec_at. now intros ->. Qed.

Lemma stack_at_inr (i : nat) (x : IValue) (s s' : State) :
  stack_at i s = (inr x, s') -> stack s !! i = Some x /\ s' = s.
Proof. unfold stack_at. apply vec_at_inr. Qed.

Lemma stack_at_Some (i : nat) (x : IValue) (s : State) :
  stack s !! i = Some x -> stack_at i s = (inr x, s).
Proof. unfold stack_at. apply vec_at_Some. Qed.

(** The loop of step 1 reads every argument as the caller passed it, and
    gathers the tensor-valued ones. *)
Lemma gather_loop (arguments_begin : nat) :
  forall len idx acc s acc' s',
    foldM (relocate_argument B arguments_begin) acc (seq idx len) s = (inr acc', s') ->
    acc' = (acc.1 ++ (gathered idx (take len (drop (arguments_begin + idx) (stack s)))).1,
            acc.2 ++ (gathered idx (take len (drop (arguments_begin + idx) (stack s)))).2)
    /\ length (stack s') = length (stack s).
Proof.
  induction len as [|len IH]; intros idx acc s acc' s' H; simpl in H.
  - inversion H; subst. simpl. rewrite !app_nil_r. now destruct acc'.
  - apply bind_inr_inv in H. destruct H as (acc1 & s1 & Hstep & Hrest).
    unfold relocate_argument in Hstep.
    apply bind_inr_inv in Hstep. destruct Hstep as (v & sv & Hv & Hbody).
    apply stack_at_inr in Hv. destruct Hv as [Hv ->].
    rewrite (drop_S _ _ _ Hv). simpl.
    assert (Hskip : forall s1, length (stack s1) = length (stack s) ->
              drop (arguments_begin + S idx) (stack s1)
                = drop (S (arguments_begin + idx)) (stack s) ->
              acc1 = acc ->
              foldM (relocate_argument B arguments_begin) acc1 (seq (S idx) len) s1
                = (inr acc', s') ->
              acc' = (acc.1 ++ (gathered (S idx)
                                  (take len (drop (S (arguments_begin + idx)) (stack s)))).1,
                      acc.2 ++ (gathered (S idx)
                                  (take len (drop (S (arguments_begin + idx)) (stack s)))).2)
              /\ length (stack s') = length (stack s)).
    { intros s2 Hl Hd -> Hr. apply IH in Hr. rewrite Hd in Hr.
      destruct Hr as [-> ->]. split; [reflexivity|exact Hl]. }
    assert (Hsame : drop (arguments_begin + S idx) (stack s)
                    = drop (S (arguments_begin + idx)) (stack s)).
    { f_equal. lia. }
    destruct v; simpl.
    + inversion Hbody; subst. now apply (Hskip s1).
    + inversion Hbody; subst. now apply (Hskip s1).
    + inversion Hbody; subst acc1 s1. clear Hbody.
      apply IH in Hrest. rewrite Hsame in Hrest. simpl in Hrest.
      destruct Hrest as [-> ->]. rewrite <- !(assoc_L (++)). now simpl.
    + apply bind_inr_inv in Hbody. destruct Hbody as (cpu & sc & Hc & Hbody).
      apply bind_inr_inv in Hbody. destruct Hbody as ([] & sw & Hw & Hbody).
      inversion Hbody; subst acc1 s1. clear Hbody.
      apply stack_set_inr in Hw. destruct Hw as [_ ->].
      pose proof (to_cpu_frame B ts s) as Hfr. rewrite Hc in Hfr. simpl in Hfr.
      subst sc. eapply Hskip; [| |reflexivity|exact Hrest];
        unfold set_stack, after_transfer; cbn [stack].
      * now rewrite length_insert.
      * rewrite drop_insert_lt by lia. exact Hsame.
Qed.

(** What a normal end of step 1 tells about the vectors it built. *)
Lemma relocate_inputs_inv (op : OperatorHandle) (s0 s1 : State) (r : Relocation) :
  relocate_inputs B op s0 = (inr r, s1) ->
  let n := length (arguments (schema op)) in
  let window := drop (length (stack s0) - n) (stack s0) in
  n <= length (stack s0)
  /\ tensor_args r = (gathered 0 window).1
  /\ tensor_args_indices r = (gathered 0 window).2
  /\ exists sg sc, to_cpu B (tensor_args r) sg = (inr (cpu_tensors r), sc).
Proof.
  intros H n window. unfold relocate_inputs in H.
  apply bind_inr_inv in H. destruct H as (ab & sa & Hab & H).
  apply last_begin_inr in Hab. destruct Hab as (-> & Hn & ->).
  apply bind_inr_inv in H. destruct H as (acc & sg & Hg & H).
  apply bind_inr_inv in H. destruct H as (cpu & sc & Hc & H).
  apply bind_inr_inv in H. destruct H as ([] & sw & Hw & H).
  inversion H; subst r s1. clear H. simpl.
  apply gather_loop in Hg. destruct Hg as [Hacc _]. simpl in Hacc.
  rewrite Nat.add_0_r in Hacc.
  rewrite take_ge in Hacc by (rewrite length_drop; fold n; lia).
  subst acc. simpl. fold n. fold window.
  repeat split; try done. eauto.
Qed.

Lemma relocate_inputs_lengths (op : OperatorHandle) (s0 s1 : State) (r : Relocation) :
  relocate_inputs B op s0 = (inr r, s1) ->
  length (tensor_args_indices r) = length (tensor_args r)
  /\ length (cpu_tensors r) = length (tensor_args r).
Proof.
  intros H. apply relocate_inputs_inv in H.
  destruct H as (_ & Ha & Hi & sg & sc & Hc).
  split.
  - rewrite Ha, Hi. symmetry. apply gathered_length.
  - apply to_cpu_inr_inv in Hc. now destruct Hc as (_ & _ & _ & _ & Hl & _).
Qed.

(** Each recorded tensor argument is the tensor the caller passed at the
    recorded position, and that position is one of the schema's arguments. *)
Lemma relocate_inputs_recorded (op : OperatorHandle) (s0 s1 : State) (r : Relocation) :
  relocate_inputs B op s0 = (inr r, s1) ->
  forall i k, tensor_args_indices r !! i = Some k ->
    k < length (arguments (schema op))
    /\ exists t, tensor_args r !! i = Some t
         /\ stack s0 !! (length (stack s0) - length (arguments (schema op)) + k)
            = Some (IVTensor t).
Proof.
  intros H i k Hk. apply relocate_inputs_inv in H.
  destruct H as (Hn & Ha & Hi & _).
  rewrite Hi in Hk. apply gathered_lookup in Hk.
  destruct Hk as (_ & t & Hw & Ht). rewrite Nat.sub_0_r in Hw.
  rewrite lookup_drop in Hw.
  split.
  - apply lookup_lt_Some in Hw. lia.
  - exists t. rewrite Ha. auto.
Qed.

(** A relocated tensor is defined only where the original is. *)
Lemma relocate_inputs_defined (op : OperatorHandle) (s0 s1 : State) (r : Relocation) :
  relocate_inputs B op s0 = (inr r, s1) ->
  forall i t c, tensor_args r !! i = Some t -> cpu_tensors r !! i = Some c ->
    defined c = true -> defined t = true.
Proof.
  intros H. apply relocate_inputs_inv in H.
  destruct H as (_ & _ & _ & sg & sc & Hc).
  exact (to_cpu_defined B _ _ _ _ Hc).
Qed.

End RelocateFacts.

(** ** Facts about step 4 *)

Lemma find_alias_inv (schema_args : list Argument) (r : Relocation)
    (ret_alias : option AliasInfo) :
  forall indices i res,
    find_alias schema_args r ret_alias i indices = inr res ->
    drop i (tensor_args_indices r) = indices ->
    match res with
    | Some m =>
        i <= m /\ alias_match schema_args r ret_alias m
        /\ forall j, i <= j < m -> ~ alias_match schema_args r ret_alias j
    | None => forall j, i <= j -> ~ alias_match schema_args r ret_alias j
    end.
Proof.
  induction indices as [|k rest IH]; intros i res H Hdrop; simpl in H.
  - inversion H; subst res. intros j Hj (k & c & sa & Hk & _).
    assert (Hn : drop i (tensor_args_indices r) !! (j - i) = None)
      by now rewrite Hdrop.
    rewrite lookup_drop in Hn. replace (i + (j - i)) with j in Hn by lia.
    congruence.
  - assert (Hk : tensor_args_indices r !! i = Some k).
    { rewrite <- (Nat.add_0_r i), <- lookup_drop, Hdrop. reflexivity. }
    assert (Hrest : drop (S i) (tensor_args_indices r) = rest).
    { rewrite (drop_S _ _ _ Hk) in Hdrop. now inversion Hdrop. }
    destruct (cpu_tensors r !! i) as [c|] eqn:Hc; [|discriminate].
    destruct (schema_args !! k) as [sa|] eqn:Hsa; [|discriminate].
    destruct (defined c && bool_decide (ret_alias = alias_info sa)) eqn:Htest.
    + inversion H; subst res. apply andb_true_iff in Htest.
      destruct Htest as [Hd Heq]. apply bool_decide_eq_true in Heq.
      split; [lia|]. split; [|intros; lia].
      exists k, c, sa. auto.
    + assert (Hno : ~ alias_match schema_args r ret_alias i).
      { intros (k' & c' & sa' & Hk' & Hc' & Hsa' & Hd & Heq).
        rewrite Hk in Hk'. inversion Hk'; subst k'.
        rewrite Hc in Hc'. inversion Hc'; subst c'.
        rewrite Hsa in Hsa'. inversion Hsa'; subst sa'.
        rewrite Hd in Htest. simpl in Htest.
        apply bool_decide_eq_false in Htest. contradiction. }
      specialize (IH (S i) res H Hrest).
      destruct res as [m|].
      * destruct IH as (Hle & Hm & Hbefore). split; [lia|]. split; [exact Hm|].
        intros j Hj. destruct (decide (j = i)) as [->|Hne]; [exact Hno|].
        apply Hbefore. lia.
      * intros j Hj. destruct (decide (j = i)) as [->|Hne]; [exact Hno|].
        apply IH. lia.
Qed.

(** The search reads inside its vectors when they have the lengths step 1
    gives them and the recorded positions are argument positions. *)
Lemma find_alias_total (schema_args : list Argument) (r : Relocation)
    (ret_alias : option AliasInfo) :
  forall indices i,
    drop i (tensor_args_indices r) = indices ->
    length (cpu_tensors r) = length (tensor_args_indices r) ->
    Forall (fun k => k < length schema_args) (tensor_args_indices r) ->
    exists res, find_alias schema_args r ret_alias i indices = inr res.
Proof.
  induction indices as [|k rest IH]; intros i Hdrop Hlen Hall; simpl; [eauto|].
  assert (Hk : tensor_args_indices r !! i = Some k).
  { rewrite <- (Nat.add_0_r i), <- lookup_drop, Hdrop. reflexivity. }
  assert (Hrest : drop (S i) (tensor_args_indices r) = rest).
  { rewrite (drop_S _ _ _ Hk) in Hdrop. now inversion Hdrop. }
  destruct (lookup_lt_is_Some_2 (cpu_tensors r) i) as [c Hc].
  { rewrite Hlen. now apply lookup_lt_Some in Hk. }
  destruct (lookup_lt_is_Some_2 schema_args k) as [sa Hsa].
  { rewrite Forall_forall in Hall. apply Hall.
    eapply list_elem_of_lookup_2, Hk. }
  rewrite Hc, Hsa. destruct (_ && _); eauto.
Qed.

Section ResolveFacts.

Context (B : Backend).


Lemma device_frame (t : Tensor) (s : State) : (device t s).2 = s.
Proof.
  unfold device. destruct t as [|p]; [reflexivity|].
  now destruct (impls (heap s) !! p).
Qed.

Lemma call_to_eq (t : Tensor) (d : Device) (s : State) :
  call_to B t d s = ((tensor_to B t d (heap s)).1, set_heap (tensor_to B t d (heap s)).2 s).
Proof. unfold call_to. now destruct (tensor_to B t d (heap s)). Qed.

(** The three ways a defined tensor return is resolved. *)

Lemma resolve_return_substitutes op r rb idx s t schema_ret i original :
  stack s !! (rb + idx) = Some (IVTensor t) ->
  defined t = true ->
  returns (schema op) !! idx = Some schema_ret ->
  is_write (alias_info schema_ret) = true ->
  find_alias (arguments (schema op)) r (alias_info schema_ret) 0
    (tensor_args_indices r) = inr (Some i) ->
  tensor_args r !! i = Some original ->
  resolve_return B op r rb idx s
    = (inr tt, set_stack (<[rb + idx := IVTensor original]> (stack s)) s).
Proof.
  intros Hslot Hd Hret Hw Hfind Horig. unfold resolve_return.
  rewrite (bind_inr _ _ _ _ _ (stack_at_Some _ _ _ Hslot)). rewrite Hd.
  rewrite (bind_inr _ _ _ _ _ (vec_at_Some _ _ _ _ Hret)). rewrite Hw, Hfind.
  rewrite (bind_inr _ _ _ _ _ (vec_at_Some _ _ _ _ Horig)).
  unfold stack_set. apply lookup_lt_Some in Hslot.
  now destruct (decide _).
Qed.

Lemma resolve_return_mismatch op r rb idx s t schema_ret :
  stack s !! (rb + idx) = Some (IVTensor t) ->
  defined t = true ->
  returns (schema op) !! idx = Some schema_ret ->
  is_write (alias_info schema_ret) = true ->
  find_alias (arguments (schema op)) r (alias_info schema_ret) 0
    (tensor_args_indices r) = inr None ->
  resolve_return B op r rb idx s
    = (inl (SchemaInconsistency (operator_name (schema op)) schema_ret), s).
Proof.
  intros Hslot Hd Hret Hw Hfind. unfold resolve_return.
  rewrite (bind_inr _ _ _ _ _ (stack_at_Some _ _ _ Hslot)). rewrite Hd.
  rewrite (bind_inr _ _ _ _ _ (vec_at_Some _ _ _ _ Hret)). now rewrite Hw, Hfind.
Qed.

Lemma resolve_return_copies op r rb idx s t schema_ret first impl moved h :
  stack s !! (rb + idx) = Some (IVTensor t) ->
  defined t = true ->
  returns (schema op) !! idx = Some schema_ret ->
  is_write (alias_info schema_ret) = false ->
  tensor_args r !! 0 = Some first ->
  tensor_impl (heap s) first = Some impl ->
  tensor_to B t (impl_device impl) (heap s) = (inr moved, h) ->
  resolve_return B op r rb idx s
    = (inr tt, after_copy op schema_ret (rb + idx) moved (impl_device impl) h s).
Proof.
  intros Hslot Hd Hret Hw Hfirst Himpl Hto. unfold resolve_return.
  rewrite (bind_inr _ _ _ _ _ (stack_at_Some _ _ _ Hslot)). rewrite Hd.
  rewrite (bind_inr _ _ _ _ _ (vec_at_Some _ _ _ _ Hret)). rewrite Hw.
  assert (Hdev : forall s1, heap s1 = heap s ->
            device first s1 = (inr (impl_device impl), s1)).
  { intros s1 Hh. unfold device. destruct first as [|p]; [discriminate|].
    simpl in Himpl. now rewrite Hh, Himpl. }
  assert (Hcopy : forall s1, heap s1 = heap s -> stack s1 = stack s ->
            copy_to_device B r rb idx t s1
            = (inr tt, set_stack (<[rb + idx := IVTensor moved]> (stack s1)) (set_heap h s1))).
  { intros s1 Hh Hs. unfold copy_to_device, first_tensor_arg.
    rewrite (bind_inr _ _ _ _ _ (vec_at_Some _ _ _ _ Hfirst)).
    rewrite (bind_inr _ _ _ _ _ (Hdev s1 Hh)).
    unfold bind at 1. rewrite call_to_eq, Hh, Hto. simpl.
    unfold stack_set. simpl. rewrite Hs. apply lookup_lt_Some in Hslot.
    now destruct (decide _). }
  unfold after_copy. destruct (is_read (alias_info schema_ret)).
  - unfold bind at 1. unfold first_tensor_arg.
    rewrite (bind_inr _ _ _ _ _ (vec_at_Some _ _ _ _ Hfirst)).
    rewrite (bind_inr _ _ _ _ _ (Hdev s eq_refl)).
    unfold warn. rewrite Hcopy by reflexivity. reflexivity.
  - unfold bind at 1. unfold ret. rewrite Hcopy by reflexivity.
    unfold set_stack, set_heap. simpl. now rewrite app_nil_r.
Qed.

Lemma same_but_refl slot s s1 : stack s1 = stack s -> same_but slot s s1.
Proof. intros H. unfold same_but. now rewrite H. Qed.

Lemma stack_set_same_but slot v s s1 :
  stack s1 = stack s -> same_but slot s (stack_set slot v s1).2.
Proof.
  intros Hs. unfold stack_set. destruct (decide _); simpl.
  - unfold same_but. simpl. rewrite Hs, length_insert. split; [reflexivity|].
    intros p Hp. apply list_lookup_insert_ne. lia.
  - now apply same_but_refl.
Qed.

Lemma copy_to_device_same_but r rb idx t s s1 :
  stack s1 = stack s -> same_but (rb + idx) s (copy_to_device B r rb idx t s1).2.
Proof.
  intros Hs. unfold copy_to_device, first_tensor_arg, vec_at.
  destruct (tensor_args r !! 0) as [first|]; unfold bind, ret, throw;
    [|now apply same_but_refl].
  pose proof (device_frame first s1) as Hdf.
  destruct (device first s1) as [[e|d] sd]; simpl in Hdf; subst sd;
    [now apply same_but_refl|].
  rewrite call_to_eq.
  destruct (tensor_to B t d (heap s1)) as [[e|moved] h]; simpl;
    [now apply same_but_refl|].
  now apply stack_set_same_but.
Qed.

Lemma resolve_return_same_but op r rb idx s :
  same_but (rb + idx) s (resolve_return B op r rb idx s).2.
Proof.
  unfold resolve_return. unfold bind at 1. unfold stack_at, vec_at.
  destruct (stack s !! (rb + idx)) as [v|]; unfold ret, throw; simpl;
    [|now apply same_but_refl].
  destruct v as [|z|t|ts]; simpl; try now apply same_but_refl.
  destruct (defined t); simpl; [|now apply same_but_refl].
  unfold bind at 1. unfold vec_at.
  destruct (returns (schema op) !! idx) as [schema_ret|]; unfold ret, throw; simpl;
    [|now apply same_but_refl].
  destruct (is_write (alias_info schema_ret)).
  - destruct (find_alias _ _ _ _ _) as [e|[i|]]; simpl; try now apply same_but_refl.
    unfold bind at 1. unfold vec_at.
    destruct (tensor_args r !! i) as [original|]; unfold ret, throw; simpl;
      [|now apply same_but_refl].
    now apply stack_set_same_but.
  - unfold bind at 1. destruct (is_read (alias_info schema_ret)).
    + unfold bind at 1. unfold first_tensor_arg, vec_at.
      destruct (tensor_args r !! 0) as [first|]; unfold ret, throw; simpl;
        [|now apply same_but_refl].
      unfold bind at 1.
      pose proof (device_frame first s) as Hdf.
      destruct (device first s) as [[e|d] sd]; simpl in Hdf; subst sd; simpl;
        [now apply same_but_refl|].
      now apply copy_to_device_same_but.
    + unfold ret. now apply copy_to_device_same_but.
Qed.

Lemma resolve_return_frame op r rb idx s :
  length (stack (resolve_return B op r rb idx s).2) = length (stack s)
  /\ forall p, p <> rb + idx ->
       stack (resolve_return B op r rb idx s).2 !! p = stack s !! p.
Proof. exact (resolve_return_same_but op r rb idx s). Qed.

Lemma resolve_loop_frame op r rb (l : list nat) :
  forall s,
    length (stack (forM l (resolve_return B op r rb) s).2) = length (stack s)
    /\ forall p, (forall j, j ∈ l -> p <> rb + j) ->
         stack (forM l (resolve_return B op r rb) s).2 !! p = stack s !! p.
Proof.
  induction l as [|idx l IH]; intros s; [simpl; auto|].
  rewrite forM_cons. unfold bind.
  destruct (resolve_return_frame op r rb idx s) as [Hl Hp].
  destruct (resolve_return B op r rb idx s) as [[e|[]] s1]; simpl in *.
  - split; [exact Hl|]. intros p Hne. apply Hp, Hne. left.
  - destruct (IH s1) as [Hl1 Hp1]. split; [congruence|].
    intros p Hne. rewrite Hp1 by (intros j Hj; apply Hne; now right).
    apply Hp, Hne. left.
Qed.

End ResolveFacts.

(** ** The fallback, one return at a time *)

Section UntilFacts.

Context (B : Backend).

Lemma resolve_returns_upto_inr op r k s s' :
  resolve_returns_upto B op r k s = (inr tt, s') ->
  length (returns (schema op)) <= length (stack s)
  /\ forM (seq 0 k)
       (resolve_return B op r (length (stack s) - length (returns (schema op)))) s
     = (inr tt, s')
  /\ length (stack s') = length (stack s).
Proof.
  unfold resolve_returns_upto. intros H.
  apply bind_inr_inv in H. destruct H as (rb & sb & Hb & H).
  apply last_begin_inr in Hb. destruct Hb as (-> & Hn & ->).
  split; [exact Hn|]. split; [exact H|].
  pose proof (resolve_loop_frame B op r
    (length (stack s) - length (returns (schema op))) (seq 0 k) s) as [Hl _].
  now rewrite H in Hl.
Qed.

Lemma until_inv op k s0 r s :
  cpu_fallback_until B op k s0 = (inr r, s) ->
  exists s1 s2 s3,
    relocate_inputs B op s0 = (inr r, s1)
    /\ call_redispatchBoxed B op s1 = (inr tt, s2)
    /\ copy_back B op r s2 = (inr tt, s3)
    /\ resolve_returns_upto B op r k s3 = (inr tt, s).
Proof.
  unfold cpu_fallback_until. intros H.
  apply bind_inr_inv in H. destruct H as (r' & s1 & H1 & H).
  apply bind_inr_inv in H. destruct H as ([] & s2 & H2 & H).
  apply bind_inr_inv in H. destruct H as ([] & s3 & H3 & H).
  apply bind_inr_inv in H. destruct H as ([] & s4 & H4 & H).
  inversion H; subst r' s4. eauto 10.
Qed.

Lemma until_intro op k s0 r s1 s2 s3 res s :
  relocate_inputs B op s0 = (inr r, s1) ->
  call_redispatchBoxed B op s1 = (inr tt, s2) ->
  copy_back B op r s2 = (inr tt, s3) ->
  resolve_returns_upto B op r k s3 = (res, s) ->
  cpu_fallback_until B op k s0
    = (match res with inr _ => inr r | inl e => inl e end, s).
Proof.
  intros H1 H2 H3 H4. unfold cpu_fallback_until.
  rewrite (bind_inr _ _ _ _ _ H1), (bind_inr _ _ _ _ _ H2), (bind_inr _ _ _ _ _ H3).
  unfold bind. rewrite H4. now destruct res as [e|[]].
Qed.

(** The rest of the call, from the state in which return [k] is reached. *)
Lemma cpu_fallback_from op k s0 r s :
  cpu_fallback_until B op k s0 = (inr r, s) ->
  k <= length (returns (schema op)) ->
  cpu_fallback B op s0
  = forM (seq k (length (returns (schema op)) - k))
      (resolve_return B op r (length (stack s) - length (returns (schema op)))) s.
Proof.
  intros H Hk. apply until_inv in H.
  destruct H as (s1 & s2 & s3 & H1 & H2 & H3 & H4).
  apply resolve_returns_upto_inr in H4. destruct H4 as (Hn & Hloop & Hlen).
  unfold cpu_fallback.
  rewrite (bind_inr _ _ _ _ _ H1), (bind_inr _ _ _ _ _ H2), (bind_inr _ _ _ _ _ H3).
  unfold resolve_returns, resolve_returns_upto.
  unfold bind at 1. unfold last_begin. destruct (decide _); [|lia].
  replace (seq 0 (length (returns (schema op))))
    with (seq 0 k ++ seq k (length (returns (schema op)) - k)).
  2:{ rewrite <- seq_app. f_equal. lia. }
  rewrite forM_app, (bind_inr _ _ _ _ _ Hloop). now rewrite Hlen.
Qed.

(** One more iteration. *)
Lemma until_S op k s0 r s res s' :
  cpu_fallback_until B op k s0 = (inr r, s) ->
  resolve_return B op r (length (stack s) - length (returns (schema op))) k s
    = (res, s') ->
  cpu_fallback_until B op (S k) s0
    = (match res with inr _ => inr r | inl e => inl e end, s').
Proof.
  intros H Hstep. apply until_inv in H.
  destruct H as (s1 & s2 & s3 & H1 & H2 & H3 & H4).
  apply resolve_returns_upto_inr in H4. destruct H4 as (Hn & Hloop & Hlen).
  eapply until_intro; eauto.
  unfold resolve_returns_upto. unfold bind at 1. unfold last_begin.
  destruct (decide _); [|lia].
  rewrite seq_S. simpl. rewrite forM_app, (bind_inr _ _ _ _ _ Hloop).
  rewrite forM_cons. unfold bind. rewrite <- Hlen, Hstep.
  now destruct res as [e|[]].
Qed.

(** Before return [k] is reached, the slots from [k] on hold what the host
    kernel left there. *)
Lemma until_slots op k s0 r s :
  cpu_fallback_until B op k s0 = (inr r, s) ->
  exists s3,
    cpu_fallback_until B op 0 s0 = (inr r, s3)
    /\ length (stack s) = length (stack s3)
    /\ forall j, k <= j ->
         stack s !! (length (stack s3) - length (returns (schema op)) + j)
         = stack s3 !! (length (stack s3) - length (returns (schema op)) + j).
Proof.
  intros H. apply until_inv in H.
  destruct H as (s1 & s2 & s3 & H1 & H2 & H3 & H4).
  apply resolve_returns_upto_inr in H4. destruct H4 as (Hn & Hloop & Hlen).
  exists s3. split; [|split; [exact Hlen|]].
  - rewrite (until_intro op 0 s0 r s1 s2 s3 (inr tt) s3 H1 H2 H3); [reflexivity|].
    unfold resolve_returns_upto. unfold bind, last_begin.
    destruct (decide _); [reflexivity|lia].
  - intros j Hj.
    pose proof (resolve_loop_frame B op r
      (length (stack s3) - length (returns (schema op))) (seq 0 k) s3) as [_ Hp].
    rewrite Hloop in Hp. apply Hp. intros j' Hj'.
    apply elem_of_seq in Hj'. lia.
Qed.

(** A call that returns went through every return slot, and what it wrote
    there stayed. *)
Lemma cpu_fallback_reaches op s0 s' idx :
  cpu_fallback B op s0 = (inr tt, s') ->
  idx < length (returns (schema op)) ->
  exists r sa sb,
    cpu_fallback_until B op idx s0 = (inr r, sa)
    /\ resolve_return B op r (length (stack sa) - length (returns (schema op))) idx sa
       = (inr tt, sb)
    /\ length (stack s') = length (stack sa)
    /\ stack s' !! (length (stack sa) - length (returns (schema op)) + idx)
       = stack sb !! (length (stack sa) - length (returns (schema op)) + idx).
Proof.
  intros H Hidx. unfold cpu_fallback in H.
  apply bind_inr_inv in H. destruct H as (r & s1 & H1 & H).
  apply bind_inr_inv in H. destruct H as ([] & s2 & H2 & H).
  apply bind_inr_inv in H. destruct H as ([] & s3 & H3 & H).
  unfold resolve_returns, resolve_returns_upto in H.
  apply bind_inr_inv in H. destruct H as (rb & sb0 & Hb & H).
  apply last_begin_inr in Hb. destruct Hb as (-> & Hn & ->).
  set (n := length (returns (schema op))) in *.
  replace (seq 0 n) with (seq 0 idx ++ idx :: seq (S idx) (n - S idx)) in H.
  2:{ change (idx :: seq (S idx) (n - S idx)) with (seq idx (S (n - S idx))).
      rewrite <- seq_app. f_equal. lia. }
  rewrite forM_app in H.
  apply bind_inr_inv in H. destruct H as ([] & sa & Ha & H).
  rewrite forM_cons in H.
  apply bind_inr_inv in H. destruct H as ([] & sb & Hstep & Hrest).
  pose proof (resolve_loop_frame B op r (length (stack s3) - n) (seq 0 idx) s3) as [Hla _].
  rewrite Ha in Hla. simpl in Hla.
  pose proof (resolve_return_frame B op r (length (stack s3) - n) idx sa) as [Hlb _].
  rewrite Hstep in Hlb. simpl in Hlb.
  pose proof (resolve_loop_frame B op r (length (stack s3) - n)
                (seq (S idx) (n - S idx)) sb) as [Hlc Hpc].
  rewrite Hrest in Hlc, Hpc. simpl in Hlc, Hpc.
  exists r, sa, sb. rewrite Hla. repeat split.
  - rewrite (until_intro op idx s0 r s1 s2 s3 (inr tt) sa H1 H2 H3); [reflexivity|].
    unfold resolve_returns_upto. unfold bind at 1. unfold last_begin.
    fold n. destruct (decide _); [exact Ha|lia].
  - exact Hstep.
  - congruence.
  - apply Hpc. intros j Hj. apply elem_of_seq in Hj. lia.
Qed.

Lemma is_read_not_write (a : option AliasInfo) :
  is_read a = true -> is_write a = false.
Proof. destruct a as [[[] ?]|]; simpl; congruence. Qed.

(** After step 1 the search of the mutable alias case stays inside its
    vectors. *)
Lemma find_alias_after_relocation op s0 s1 r ret_alias :
  relocate_inputs B op s0 = (inr r, s1) ->
  exists res,
    find_alias (arguments (schema op)) r ret_alias 0 (tensor_args_indices r)
    = inr res.
Proof.
  intros H. destruct (relocate_inputs_lengths B op s0 s1 r H) as [Hli Hlc].
  apply find_alias_total; [reflexivity|congruence|].
  apply Forall_forall. intros k Hk. apply list_elem_of_lookup in Hk.
  destruct Hk as [i Hi].
  now destruct (relocate_inputs_recorded B op s0 s1 r H i k Hi).
Qed.

End UntilFacts.

(** ** Mutable alias returns *)

Section WriteAlias.

Context (B : Backend).

(** How a defined tensor return with a Write annotation is resolved. *)
Lemma write_alias_resolution
    (op : OperatorHandle) (s0 s : State) (r : Relocation)
    (idx : nat) (t : Tensor) (schema_ret : Argument) :
  let slot := length (stack s) - length (returns (schema op)) + idx in
  cpu_fallback_until B op idx s0 = (inr r, s) ->
  returns (schema op) !! idx = Some schema_ret ->
  is_write (alias_info schema_ret) = true ->
  stack s !! slot = Some (IVTensor t) ->
  defined t = true ->
  ((exists i original,
      alias_match (arguments (schema op)) r (alias_info schema_ret) i
      /\ (forall j, j < i ->
            ~ alias_match (arguments (schema op)) r (alias_info schema_ret) j)
      /\ tensor_args r !! i = Some original
      /\ defined original = true
      /\ resolve_return B op r (length (stack s) - length (returns (schema op))) idx s
         = (inr tt, set_stack (<[slot := IVTensor original]> (stack s)) s))
   \/ ((forall j, ~ alias_match (arguments (schema op)) r (alias_info schema_ret) j)
       /\ resolve_return B op r (length (stack s) - length (returns (schema op))) idx s
          = (inl (SchemaInconsistency (operator_name (schema op)) schema_ret), s)))
  /\ (forall j k c schema_arg,
        tensor_args_indices r !! j = Some k ->
        cpu_tensors r !! j = Some c ->
        arguments (schema op) !! k = Some schema_arg ->
        defined c = false ->
        alias_info schema_arg = alias_info schema_ret ->
        ~ alias_match (arguments (schema op)) r (alias_info schema_ret) j).
Proof.
  intros slot Huntil Hret Hw Hslot Hd.
  destruct (until_inv B op idx s0 r s Huntil) as (s1 & s2 & s3 & H1 & _).
  destruct (relocate_inputs_lengths B op s0 s1 r H1) as [Hli Hlc].
  split.
  - destruct (find_alias_after_relocation B op s0 s1 r (alias_info schema_ret) H1)
      as [res Hfind].
    pose proof (find_alias_inv _ _ _ _ _ _ Hfind eq_refl) as Hinv.
    destruct res as [i|].
    + left. destruct Hinv as (_ & Hm & Hbefore).
      destruct Hm as (k & c & sa & Hk & Hc & Hsa & Hdc & Heq).
      destruct (lookup_lt_is_Some_2 (tensor_args r) i) as [original Ho].
      { rewrite <- Hli. now apply lookup_lt_Some in Hk. }
      exists i, original. split; [exists k, c, sa; auto|].
      split; [intros j Hj; apply Hbefore; lia|].
      split; [exact Ho|]. split.
      * exact (relocate_inputs_defined B op s0 s1 r H1 i original c Ho Hc Hdc).
      * now apply (resolve_return_substitutes B op r _ idx s t schema_ret i).
    + right. split; [intros j; apply Hinv; lia|].
      now apply (resolve_return_mismatch B op r _ idx s t schema_ret).
  - intros j k c sa Hk Hc Hsa Hdc _ (k' & c' & sa' & Hk' & Hc' & _ & Hdc' & _).
    congruence.
Qed.

(** C10.  When the call reaches a defined tensor return with a Write
    annotation, the recorded tensor arguments are searched in increasing
    order for the first whose relocated tensor is defined and whose
    annotation equals the return's.  If there is one, the original tensor of
    that argument, which is defined, is written into the return slot; an
    argument whose relocated tensor is undefined never passes the test, even
    with an equal annotation.  If there is none, the call fails. *)
Theorem substituted_input_is_first_defined_match
    (op : OperatorHandle) (s0 s : State) (r : Relocation)
    (idx : nat) (t : Tensor) (schema_ret : Argument) :
  let slot := length (stack s) - length (returns (schema op)) + idx in
  cpu_fallback_until B op idx s0 = (inr r, s) ->
  returns (schema op) !! idx = Some schema_ret ->
  is_write (alias_info schema_ret) = true ->
  stack s !! slot = Some (IVTensor t) ->
  defined t = true ->
  ((exists i original,
      alias_match (arguments (schema op)) r (alias_info schema_ret) i
      /\ (forall j, j < i ->
            ~ alias_match (arguments (schema op)) r (alias_info schema_ret) j)
      /\ tensor_args r !! i = Some original
      /\ defined original = true
      /\ resolve_return B op r (length (stack s) - length (returns (schema op))) idx s
         = (inr tt, set_stack (<[slot := IVTensor original]> (stack s)) s))
   \/ ((forall j, ~ alias_match (arguments (schema op)) r (alias_info schema_ret) j)
       /\ resolve_return B op r (length (stack s) - length (returns (schema op))) idx s
          = (inl (SchemaInconsistency (operator_name (schema op)) schema_ret), s)))
  /\ (forall j k c schema_arg,
        tensor_args_indices r !! j = Some k ->
        cpu_tensors r !! j = Some c ->
        arguments (schema op) !! k = Some schema_arg ->
        defined c = false ->
        alias_info schema_arg = alias_info schema_ret ->
        ~ alias_match (arguments (schema op)) r (alias_info schema_ret) j).
Proof. exact (write_alias_resolution op s0 s r idx t schema_ret). Qed.

(** C1.  When the call returns, every return slot in which the host kernel
    left a defined tensor and whose schema annotation is Write holds one of
    the tensors the caller passed: the very tensor that stood, before
    relocation, at an argument position carrying the same annotation.  It is
    the caller's object, hence on the caller's device, and neither the host
    result nor a new tensor. *)
Theorem write_alias_return_holds_original_input
    (op : OperatorHandle) (s0 s3 s' : State) (r : Relocation)
    (idx : nat) (t : Tensor) (schema_ret : Argument) :
  cpu_fallback_until B op 0 s0 = (inr r, s3) ->
  cpu_fallback B op s0 = (inr tt, s') ->
  returns (schema op) !! idx = Some schema_ret ->
  is_write (alias_info schema_ret) = true ->
  stack s3 !! (length (stack s3) - length (returns (schema op)) + idx)
    = Some (IVTensor t) ->
  defined t = true ->
  exists k original schema_arg,
    arguments (schema op) !! k = Some schema_arg
    /\ alias_info schema_arg = alias_info schema_ret
    /\ stack s0 !! (length (stack s0) - length (arguments (schema op)) + k)
       = Some (IVTensor original)
    /\ defined original = true
    /\ stack s' !! (length (stack s') - length (returns (schema op)) + idx)
       = Some (IVTensor original).
Proof.
  intros H0 Hrun Hret Hw Hslot Hd.
  assert (Hidx : idx < length (returns (schema op))) by now apply lookup_lt_Some in Hret.
  destruct (cpu_fallback_reaches B op s0 s' idx Hrun Hidx)
    as (r' & sa & sb & Huntil & Hstep & Hlen' & Hkeep).
  destruct (until_slots B op idx s0 r' sa Huntil) as (s3' & H0' & Hlen & Hsame).
  rewrite H0 in H0'. inversion H0'; subst r' s3'. clear H0'.
  specialize (Hsame idx (le_n _)). rewrite <- Hlen in Hsame.
  rewrite <- Hlen in Hslot. rewrite <- Hsame in Hslot.
  destruct (write_alias_resolution op s0 sa r idx t schema_ret
              Huntil Hret Hw Hslot Hd) as [Hcases _].
  destruct Hcases as [(i & original & Hm & _ & Ho & Hdo & Hres)|[_ Hres]];
    [|rewrite Hres in Hstep; discriminate].
  rewrite Hres in Hstep. inversion Hstep; subst sb. clear Hstep.
  destruct Hm as (k & c & sa' & Hk & Hc & Hsa & Hdc & Heq).
  destruct (until_inv B op idx s0 r sa Huntil) as (s1 & _ & _ & H1 & _).
  destruct (relocate_inputs_recorded B op s0 s1 r H1 i k Hk) as (_ & o' & Ho' & Hstack).
  rewrite Ho in Ho'. inversion Ho'; subst o'.
  exists k, original, sa'. repeat split; try done.
  rewrite Hlen', Hkeep. simpl.
  apply list_lookup_insert_eq. now apply lookup_lt_Some in Hslot.
Qed.

(** C3.  When the call reaches a defined tensor return whose annotation is
    Write and no recorded tensor argument carries an equal annotation, the
    call fails there with the schema inconsistency error, which names the
    operator and the return; nothing is written for that return. *)
Theorem mismatched_write_alias_return_is_fatal
    (op : OperatorHandle) (s0 s : State) (r : Relocation)
    (idx : nat) (t : Tensor) (schema_ret : Argument) :
  cpu_fallback_until B op idx s0 = (inr r, s) ->
  returns (schema op) !! idx = Some schema_ret ->
  is_write (alias_info schema_ret) = true ->
  stack s !! (length (stack s) - length (returns (schema op)) + idx)
    = Some (IVTensor t) ->
  defined t = true ->
  (forall i k schema_arg,
      tensor_args_indices r !! i = Some k ->
      arguments (schema op) !! k = Some schema_arg ->
      alias_info schema_arg <> alias_info schema_ret) ->
  cpu_fallback B op s0
    = (inl (SchemaInconsistency (operator_name (schema op)) schema_ret), s).
Proof.
  intros Huntil Hret Hw Hslot Hd Hnone.
  assert (Hidx : idx < length (returns (schema op))) by now apply lookup_lt_Some in Hret.
  destruct (write_alias_resolution op s0 s r idx t schema_ret
              Huntil Hret Hw Hslot Hd) as [Hcases _].
  destruct Hcases as [(i & original & Hm & _)|[_ Hres]].
  - destruct Hm as (k & c & sa & Hk & _ & Hsa & _ & Heq).
    exfalso. now apply (Hnone i k sa Hk Hsa).
  - rewrite (cpu_fallback_from B op idx s0 r s Huntil) by lia.
    replace (length (returns (schema op)) - idx)
      with (S (length (returns (schema op)) - S idx)) by lia.
    simpl. rewrite forM_cons. now rewrite (bind_inl _ _ _ _ _ Hres).
Qed.

End WriteAlias.

(** ** Returns that are copied back *)

Section CopyCase.

Context (B : Backend).

Lemma copy_to_device_run r rb idx t s first impl moved h :
  rb + idx < length (stack s) ->
  tensor_args r !! 0 = Some first ->
  tensor_impl (heap s) first = Some impl ->
  tensor_to B t (impl_device impl) (heap s) = (inr moved, h) ->
  copy_to_device B r rb idx t s
  = (inr tt, set_stack (<[rb + idx := IVTensor moved]> (stack s)) (set_heap h s)).
Proof.
  intros Hslot Hfirst Himpl Hto. unfold copy_to_device, first_tensor_arg.
  rewrite (bind_inr _ _ _ _ _ (vec_at_Some _ _ _ _ Hfirst)).
  assert (Hdev : device first s = (inr (impl_device impl), s)).
  { unfold device. destruct first as [|p]; [discriminate|].
    simpl in Himpl. now rewrite Himpl. }
  rewrite (bind_inr _ _ _ _ _ Hdev).
  unfold bind at 1. rewrite call_to_eq, Hto. simpl.
  unfold stack_set. simpl. now destruct (decide _).
Qed.





End CopyCase.

Section CopyCaseResults.

Context (B : Backend).

(** What follows an iteration of step 4: its failure is the failure of the
    call, and after its normal end the call goes on with the later returns. *)
Lemma cpu_fallback_after_return op idx s0 r s res s1 :
  cpu_fallback_until B op idx s0 = (inr r, s) ->
  idx < length (returns (schema op)) ->
  resolve_return B op r (length (stack s) - length (returns (schema op))) idx s
    = (res, s1) ->
  cpu_fallback B op s0
  = match res with
    | inl e => (inl e, s1)
    | inr _ =>
        forM (seq (S idx) (length (returns (schema op)) - S idx))
          (resolve_return B op r (length (stack s) - length (returns (schema op)))) s1
    end.
Proof.
  intros Huntil Hidx Hstep.
  rewrite (cpu_fallback_from B op idx s0 r s Huntil) by lia.
  replace (length (returns (schema op)) - idx)
    with (S (length (returns (schema op)) - S idx)) by lia.
  simpl. rewrite forM_cons. unfold bind. rewrite Hstep.
  now destruct res as [e|[]].
Qed.

(** The copy case when it fails: the first recorded tensor argument is
    missing or has no device, or [to] fails. *)
Lemma resolve_return_no_argument op r rb idx s t schema_ret :
  stack s !! (rb + idx) = Some (IVTensor t) ->
  defined t = true ->
  returns (schema op) !! idx = Some schema_ret ->
  is_write (alias_info schema_ret) = false ->
  tensor_args r !! 0 = None ->
  resolve_return B op r rb idx s = (inl OutOfBounds, s).
Proof.
  intros Hslot Hd Hret Hw Hfirst. unfold resolve_return.
  rewrite (bind_inr _ _ _ _ _ (stack_at_Some _ _ _ Hslot)). rewrite Hd.
  rewrite (bind_inr _ _ _ _ _ (vec_at_Some _ _ _ _ Hret)). rewrite Hw.
  unfold copy_to_device, first_tensor_arg, vec_at. rewrite Hfirst.
  destruct (is_read (alias_info schema_ret)); reflexivity.
Qed.

Lemma resolve_return_no_device op r rb idx s t schema_ret first :
  stack s !! (rb + idx) = Some (IVTensor t) ->
  defined t = true ->
  returns (schema op) !! idx = Some schema_ret ->
  is_write (alias_info schema_ret) = false ->
  tensor_args r !! 0 = Some first ->
  tensor_impl (heap s) first = None ->
  resolve_return B op r rb idx s = (inl NoDevice, s).
Proof.
  intros Hslot Hd Hret Hw Hfirst Himpl. unfold resolve_return.
  rewrite (bind_inr _ _ _ _ _ (stack_at_Some _ _ _ Hslot)). rewrite Hd.
  rewrite (bind_inr _ _ _ _ _ (vec_at_Some _ _ _ _ Hret)). rewrite Hw.
  assert (Hdev : device first s = (inl NoDevice, s)).
  { unfold device. destruct first as [|p]; [reflexivity|].
    simpl in Himpl. now rewrite Himpl. }
  unfold copy_to_device, first_tensor_arg.
  destruct (is_read (alias_info schema_ret)).
  - unfold bind at 1. unfold bind at 1.
    rewrite (vec_at_Some _ _ _ _ Hfirst). unfold bind at 1. now rewrite Hdev.
  - unfold bind at 1. unfold ret.
    rewrite (bind_inr _ _ _ _ _ (vec_at_Some _ _ _ _ Hfirst)).
    now rewrite (bind_inl _ _ _ _ _ Hdev).
Qed.

Lemma resolve_return_to_fails op r rb idx s t schema_ret first impl e h :
  stack s !! (rb + idx) = Some (IVTensor t) ->
  defined t = true ->
  returns (schema op) !! idx = Some schema_ret ->
  is_write (alias_info schema_ret) = false ->
  tensor_args r !! 0 = Some first ->
  tensor_impl (heap s) first = Some impl ->
  tensor_to B t (impl_device impl) (heap s) = (inl e, h) ->
  resolve_return B op r rb idx s
    = (inl e,
       {| stack := stack s; heap := h; transfers := transfers s;
          warnings :=
            warnings s ++
            (if is_read (alias_info schema_ret)
             then [{| warn_operator := operator_name (schema op);
                      warn_device := impl_device impl |}]
             else []) |}).
Proof.
  intros Hslot Hd Hret Hw Hfirst Himpl Hto. unfold resolve_return.
  rewrite (bind_inr _ _ _ _ _ (stack_at_Some _ _ _ Hslot)). rewrite Hd.
  rewrite (bind_inr _ _ _ _ _ (vec_at_Some _ _ _ _ Hret)). rewrite Hw.
  assert (Hdev : forall s1, heap s1 = heap s ->
            device first s1 = (inr (impl_device impl), s1)).
  { intros s1 Hh. unfold device. destruct first as [|p]; [discriminate|].
    simpl in Himpl. now rewrite Hh, Himpl. }
  assert (Hcopy : forall s1, heap s1 = heap s ->
            copy_to_device B r rb idx t s1 = (inl e, set_heap h s1)).
  { intros s1 Hh. unfold copy_to_device, first_tensor_arg.
    rewrite (bind_inr _ _ _ _ _ (vec_at_Some _ _ _ _ Hfirst)).
    rewrite (bind_inr _ _ _ _ _ (Hdev s1 Hh)).
    unfold bind at 1. now rewrite call_to_eq, Hh, Hto. }
  destruct (is_read (alias_info schema_ret)).
  - unfold bind at 1. unfold first_tensor_arg.
    rewrite (bind_inr _ _ _ _ _ (vec_at_Some _ _ _ _ Hfirst)).
    rewrite (bind_inr _ _ _ _ _ (Hdev s eq_refl)).
    unfold warn. rewrite Hcopy by reflexivity. reflexivity.
  - unfold bind at 1. unfold ret. rewrite Hcopy by reflexivity.
    unfold set_heap. simpl. now rewrite app_nil_r.
Qed.

(** C6, as the code has it.  Let the call reach a defined tensor return
    whose annotation is Read.  When the first recorded tensor argument has a
    device to which [to] copies the host result, the call does not stop
    there: it goes on to the next return with exactly one more warning,
    naming the operator and that device, and with the copy in the return
    slot; stack and heap are the ones the copy case alone produces, as for a
    return without annotation, and when [to] behaves as the copy primitive
    of the reference backend the copy is a new tensor on that device with
    the values of the host result in a storage that did not exist before.
    Otherwise the call stops at this return: with the error of [to], after
    the warning, when [to] fails; with the error of [device] and without a
    warning when the first recorded tensor argument has no device; and out
    of the bounds of [tensor_args] when no tensor argument was recorded. *)
Theorem read_alias_return_warns_then_copies
    (op : OperatorHandle) (s0 s : State) (r : Relocation)
    (idx : nat) (t : Tensor) (schema_ret : Argument) :
  let rb := length (stack s) - length (returns (schema op)) in
  cpu_fallback_until B op idx s0 = (inr r, s) ->
  returns (schema op) !! idx = Some schema_ret ->
  is_read (alias_info schema_ret) = true ->
  stack s !! (rb + idx) = Some (IVTensor t) ->
  defined t = true ->
  (forall first impl moved h,
     tensor_args r !! 0 = Some first ->
     tensor_impl (heap s) first = Some impl ->
     tensor_to B t (impl_device impl) (heap s) = (inr moved, h) ->
     cpu_fallback_until B op (S idx) s0
     = (inr r,
        {| stack := <[rb + idx := IVTensor moved]> (stack s);
           heap := h;
           transfers := transfers s;
           warnings := warnings s ++
             [{| warn_operator := operator_name (schema op);
                 warn_device := impl_device impl |}] |})
     /\ copy_to_device B r rb idx t s
        = (inr tt, {| stack := <[rb + idx := IVTensor moved]> (stack s);
                      heap := h;
                      transfers := transfers s; warnings := warnings s |})
     /\ (tensor_to B t (impl_device impl) (heap s)
           = to_spec t (impl_device impl) (heap s) ->
         exists mimpl,
           tensor_impl h moved = Some mimpl
           /\ impl_device mimpl = impl_device impl
           /\ storages (heap s) !! impl_storage mimpl = None
           /\ impls (heap s) !! length (impls (heap s)) = None
           /\ moved = TensorRef (length (impls (heap s)))
           /\ tensor_data h moved = tensor_data (heap s) t))
  /\ (forall first impl e h,
        tensor_args r !! 0 = Some first ->
        tensor_impl (heap s) first = Some impl ->
        tensor_to B t (impl_device impl) (heap s) = (inl e, h) ->
        cpu_fallback B op s0
        = (inl e,
           {| stack := stack s; heap := h; transfers := transfers s;
              warnings := warnings s ++
                [{| warn_operator := operator_name (schema op);
                    warn_device := impl_device impl |}] |}))
  /\ (forall first,
        tensor_args r !! 0 = Some first ->
        tensor_impl (heap s) first = None ->
        cpu_fallback B op s0 = (inl NoDevice, s))
  /\ (tensor_args r !! 0 = None ->
      cpu_fallback B op s0 = (inl OutOfBounds, s)).
Proof.
  intros rb Huntil Hret Hr Hslot Hd.
  pose proof (is_read_not_write _ Hr) as Hw.
  assert (Hidx : idx < length (returns (schema op))) by now apply lookup_lt_Some in Hret.
  split; [|split; [|split]].
  - intros first impl moved h Hfirst Himpl Hto.
    pose proof (resolve_return_copies B op r rb idx s t schema_ret first impl moved h
                  Hslot Hd Hret Hw Hfirst Himpl Hto) as Hstep.
    unfold after_copy in Hstep. rewrite Hr in Hstep.
    split; [|split].
    + now rewrite (until_S B op idx s0 r s _ _ Huntil Hstep).
    + apply lookup_lt_Some in Hslot.
      now rewrite (copy_to_device_run B r rb idx t s first impl moved h).
    + intros Hspec. rewrite Hspec in Hto. unfold to_spec in Hto.
      destruct (tensor_impl (heap s) t) as [timpl|] eqn:Ht; [|discriminate].
      destruct (tensor_data (heap s) t) as [data|] eqn:Hdata; [|discriminate].
      unfold alloc in Hto. inversion Hto; subst moved h. clear Hto.
      eexists. simpl. rewrite lookup_app_r by lia. rewrite Nat.sub_diag. simpl.
      split; [reflexivity|]. simpl. split; [reflexivity|].
      split; [apply lookup_ge_None_2; lia|].
      split; [apply lookup_ge_None_2; lia|].
      split; [reflexivity|].
      unfold tensor_data at 1. simpl.
      rewrite lookup_app_r by lia. rewrite Nat.sub_diag. simpl.
      rewrite lookup_app_r by lia. rewrite Nat.sub_diag. reflexivity.
  - intros first impl e h Hfirst Himpl Hto.
    pose proof (resolve_return_to_fails op r rb idx s t schema_ret first impl e h
                  Hslot Hd Hret Hw Hfirst Himpl Hto) as Hstep.
    rewrite Hr in Hstep.
    exact (cpu_fallback_after_return op idx s0 r s (inl e) _ Huntil Hidx Hstep).
  - intros first Hfirst Himpl.
    pose proof (resolve_return_no_device op r rb idx s t schema_ret first
                  Hslot Hd Hret Hw Hfirst Himpl) as Hstep.
    exact (cpu_fallback_after_return op idx s0 r s (inl NoDevice) _ Huntil Hidx Hstep).
  - intros Hfirst.
    pose proof (resolve_return_no_argument op r rb idx s t schema_ret
                  Hslot Hd Hret Hw Hfirst) as Hstep.
    exact (cpu_fallback_after_return op idx s0 r s (inl OutOfBounds) _ Huntil Hidx Hstep).
Qed.



(** C8.  After step 1 the recorded tensor arguments are the tensor-valued
    arguments of the call.  If the call has one, [tensor_args[0]] exists in
    every later state, so no read of it falls outside the vector.  If the
    call has none, the vector is empty and the copy case, reached for a
    defined tensor return without a Write annotation, reads past its end:
    nothing in the code answers for that case. *)
Theorem first_tensor_argument_access
    (op : OperatorHandle) (s0 s1 : State) (r : Relocation) :
  let ab := length (stack s0) - length (arguments (schema op)) in
  relocate_inputs B op s0 = (inr r, s1) ->
  ((exists k t, stack s0 !! (ab + k) = Some (IVTensor t)) ->
     exists first, forall s, first_tensor_arg r s = (inr first, s))
  /\ ((forall k v, stack s0 !! (ab + k) = Some v -> as_tensor v = None) ->
      tensor_args r = []
      /\ forall rb idx s t schema_ret,
           stack s !! (rb + idx) = Some (IVTensor t) ->
           defined t = true ->
           returns (schema op) !! idx = Some schema_ret ->
           is_write (alias_info schema_ret) = false ->
           resolve_return B op r rb idx s = (inl OutOfBounds, s)).
Proof.
  intros ab H. pose proof (relocate_inputs_inv B op s0 s1 r H) as Hinv.
  simpl in Hinv. fold ab in Hinv. destruct Hinv as (Hn & Ha & Hi & _).
  split.
  - intros (k & t & Hk).
    destruct (gathered_complete (drop ab (stack s0)) 0 k t) as (i & _ & Hi').
    { now rewrite lookup_drop. }
    rewrite <- Ha in Hi'.
    destruct (lookup_lt_is_Some_2 (tensor_args r) 0) as [first Hf].
    { apply lookup_lt_Some in Hi'. lia. }
    exists first. intros s. unfold first_tensor_arg. now apply vec_at_Some.
  - intros Hnone.
    assert (Hnil : tensor_args r = []).
    { rewrite Ha. apply gathered_nil. intros j v Hv.
      rewrite lookup_drop in Hv. exact (Hnone j v Hv). }
    split; [exact Hnil|].
    intros rb idx s t schema_ret Hslot Hd Hret Hw. unfold resolve_return.
    rewrite (bind_inr _ _ _ _ _ (stack_at_Some _ _ _ Hslot)). rewrite Hd.
    rewrite (bind_inr _ _ _ _ _ (vec_at_Some _ _ _ _ Hret)). rewrite Hw.
    unfold first_tensor_arg, copy_to_device, first_tensor_arg. rewrite Hnil.
    destruct (is_read (alias_info schema_ret)); reflexivity.
Qed.

End CopyCaseResults.

(** ** Copying back into mutable alias inputs *)

Section CopySpecFacts.


End CopySpecFacts.

Section CopyBack.

Context (B : Backend).

Lemma call_copy_eq (src dst : Tensor) (s : State) :
  call_copy_from_and_resize B src dst s
  = ((at_copy_from_and_resize B src dst (heap s)).1,
     set_heap (at_copy_from_and_resize B src dst (heap s)).2 s).
Proof.
  unfold call_copy_from_and_resize.
  now destruct (at_copy_from_and_resize B src dst (heap s)).
Qed.

(** Step 3 is the copy primitive run over the recorded Write pairs. *)
Lemma copy_back_loop_eq op r :
  length (cpu_tensors r) = length (tensor_args_indices r) ->
  length (tensor_args r) = length (tensor_args_indices r) ->
  Forall (fun k => k < length (arguments (schema op))) (tensor_args_indices r) ->
  forall indices i s,
    drop i (tensor_args_indices r) = indices ->
    forM (seq i (length indices)) (copy_back_argument B op r) s
    = forM (write_pairs (arguments (schema op)) indices
              (drop i (cpu_tensors r)) (drop i (tensor_args r)))
        (fun p => call_copy_from_and_resize B p.1 p.2) s.
Proof.
  intros Hlc Hla Hall.
  induction indices as [|k rest IH]; intros i s Hdrop; [reflexivity|].
  assert (Hk : tensor_args_indices r !! i = Some k).
  { rewrite <- (Nat.add_0_r i), <- lookup_drop, Hdrop. reflexivity. }
  assert (Hrest : drop (S i) (tensor_args_indices r) = rest).
  { rewrite (drop_S _ _ _ Hk) in Hdrop. now inversion Hdrop. }
  assert (Hi : i < length (tensor_args_indices r)) by now apply lookup_lt_Some in Hk.
  destruct (lookup_lt_is_Some_2 (cpu_tensors r) i) as [c Hc]; [lia|].
  destruct (lookup_lt_is_Some_2 (tensor_args r) i) as [a Ha]; [lia|].
  destruct (lookup_lt_is_Some_2 (arguments (schema op)) k) as [sa Hsa].
  { rewrite Forall_forall in Hall. apply Hall. eapply list_elem_of_lookup_2, Hk. }
  rewrite (drop_S _ _ _ Hc), (drop_S _ _ _ Ha). simpl. rewrite Hsa.
  rewrite forM_cons. unfold copy_back_argument at 1.
  unfold bind at 1.
  rewrite (bind_inr _ _ _ _ _ (vec_at_Some _ _ _ _ Hk)).
  rewrite (bind_inr _ _ _ _ _ (vec_at_Some _ _ _ _ Hsa)).
  destruct (is_write (alias_info sa)).
  - rewrite (bind_inr _ _ _ _ _ (vec_at_Some _ _ _ _ Hc)).
    rewrite (bind_inr _ _ _ _ _ (vec_at_Some _ _ _ _ Ha)).
    rewrite forM_cons. unfold bind. simpl.
    destruct (call_copy_from_and_resize B c a s) as [[e|[]] s1]; [reflexivity|].
    now apply IH.
  - unfold ret. now apply IH.
Qed.

Lemma copy_back_eq op s0 s1 r s :
  relocate_inputs B op s0 = (inr r, s1) ->
  copy_back B op r s
  = forM (recorded_write_pairs op r)
      (fun p => call_copy_from_and_resize B p.1 p.2) s.
Proof.
  intros H. destruct (relocate_inputs_lengths B op s0 s1 r H) as [Hli Hlc].
  unfold copy_back, recorded_write_pairs.
  rewrite (copy_back_loop_eq op r) with (indices := tensor_args_indices r);
    [reflexivity|congruence|congruence| |reflexivity].
  apply Forall_forall. intros k Hk. apply list_elem_of_lookup in Hk.
  destruct Hk as [i Hi].
  now destruct (relocate_inputs_recorded B op s0 s1 r H i k Hi).
Qed.

Lemma write_pairs_member (schema_args : list Argument) :
  forall indices cpus args i k schema_arg c a,
    indices !! i = Some k ->
    schema_args !! k = Some schema_arg ->
    is_write (alias_info schema_arg) = true ->
    cpus !! i = Some c ->
    args !! i = Some a ->
    (c, a) ∈ write_pairs schema_args indices cpus args.
Proof.
  induction indices as [|k0 indices IH]; intros cpus args i k sa c a Hk Hsa Hw Hc Ha;
    [done|].
  destruct cpus as [|c0 cpus]; [done|]. destruct args as [|a0 args]; [done|].
  destruct i as [|i]; simpl in *.
  - inversion Hk; inversion Hc; inversion Ha; subst. rewrite Hsa, Hw. left.
  - specialize (IH cpus args i k sa c a Hk Hsa Hw Hc Ha).
    destruct (schema_args !! k0) as [sa0|]; [|exact IH].
    destruct (is_write (alias_info sa0)); [now right|exact IH].
Qed.




End CopyBack.

Section CopyBackResult.

Context (B : Backend).


End CopyBackResult.

(** ** Failures *)

Section Failures.

Context (B : Backend).

Lemma seq_split_at (k m : nat) :
  seq 0 (k + S m) = seq 0 k ++ k :: seq (S k) m.
Proof. now rewrite seq_app. Qed.

(** A failure of [at::_to_cpu] is the failure of [to_cpu], after that one
    call. *)
Lemma to_cpu_primitive_fails (tensors : list Tensor) (s : State) (e : Error) (h : Heap) :
  at_to_cpu B (List.filter defined tensors) (heap s) = (inl e, h) ->
  to_cpu B tensors s = (inl e, after_transfer (List.filter defined tensors) h s).
Proof.
  intros H. rewrite to_cpu_unfold. apply bind_inl. now rewrite call_to_cpu_eq, H.
Qed.

Lemma relocate_until_inv op k s0 ab acc s :
  relocate_until B op k s0 = (inr (ab, acc), s) ->
  last_begin (length (arguments (schema op))) s0 = (inr ab, s0)
  /\ foldM (relocate_argument B ab) ([], []) (seq 0 k) s0 = (inr acc, s).
Proof.
  unfold relocate_until. intros H.
  apply bind_inr_inv in H. destruct H as (ab' & s1 & Hb & H).
  apply bind_inr_inv in H. destruct H as (acc' & s2 & Hf & H).
  inversion H; subst ab' acc' s2. clear H.
  destruct (last_begin_inr _ _ _ _ Hb) as (-> & _ & _). auto.
Qed.

Lemma cpu_fallback_copying_inv op k s0 r s :
  cpu_fallback_copying B op k s0 = (inr r, s) ->
  exists s1 s2,
    relocate_inputs B op s0 = (inr r, s1)
    /\ call_redispatchBoxed B op s1 = (inr tt, s2)
    /\ forM (seq 0 k) (copy_back_argument B op r) s2 = (inr tt, s).
Proof.
  unfold cpu_fallback_copying. intros H.
  apply bind_inr_inv in H. destruct H as (r' & s1 & H1 & H).
  apply bind_inr_inv in H. destruct H as ([] & s2 & H2 & H).
  apply bind_inr_inv in H. destruct H as ([] & s3 & H3 & H).
  inversion H; subst r' s3. eauto.
Qed.

(** C9, as the code has it.  A failure inside the call is the failure of the
    call: the call ends with the error of the first operation that fails, in
    the state the call had reached with only the effect of that operation
    added.  Nothing is retried, nothing is caught, and nothing that the call
    wrote before to the stack or to the tensors is undone.  This holds for
    [at::_to_cpu] on a tensor list argument met in the loop of step 1, for
    [at::_to_cpu] on the gathered tensors, for the host kernel, for
    [_copy_from_and_resize] on a Write argument in the loop of step 3, for
    [to] on a return that is copied in the loop of step 4, and for a Write
    return that no recorded argument matches. *)
Theorem failure_is_that_of_first_failing_step
    (op : OperatorHandle) (s0 : State) (e : Error) :
  (forall k ab acc s ts h,
     relocate_until B op k s0 = (inr (ab, acc), s) ->
     k < length (arguments (schema op)) ->
     stack s !! (ab + k) = Some (IVTensorList ts) ->
     at_to_cpu B (List.filter defined ts) (heap s) = (inl e, h) ->
     cpu_fallback B op s0 = (inl e, after_transfer (List.filter defined ts) h s))
  /\ (forall ab acc s h,
        relocate_until B op (length (arguments (schema op))) s0 = (inr (ab, acc), s) ->
        at_to_cpu B (List.filter defined acc.1) (heap s) = (inl e, h) ->
        cpu_fallback B op s0
        = (inl e, after_transfer (List.filter defined acc.1) h s))
  /\ (forall r s stk h,
        relocate_inputs B op s0 = (inr r, s) ->
        redispatchBoxed B op (stack s) (heap s) = (inl e, (stk, h)) ->
        cpu_fallback B op s0 = (inl e, set_heap h (set_stack stk s)))
  /\ (forall k r s idx schema_arg src dst h,
        cpu_fallback_copying B op k s0 = (inr r, s) ->
        tensor_args_indices r !! k = Some idx ->
        arguments (schema op) !! idx = Some schema_arg ->
        is_write (alias_info schema_arg) = true ->
        cpu_tensors r !! k = Some src ->
        tensor_args r !! k = Some dst ->
        at_copy_from_and_resize B src dst (heap s) = (inl e, h) ->
        cpu_fallback B op s0 = (inl e, set_heap h s))
  /\ (forall idx r s t schema_ret first impl h,
        cpu_fallback_until B op idx s0 = (inr r, s) ->
        returns (schema op) !! idx = Some schema_ret ->
        is_write (alias_info schema_ret) = false ->
        stack s !! (length (stack s) - length (returns (schema op)) + idx)
          = Some (IVTensor t) ->
        defined t = true ->
        tensor_args r !! 0 = Some first ->
        tensor_impl (heap s) first = Some impl ->
        tensor_to B t (impl_device impl) (heap s) = (inl e, h) ->
        cpu_fallback B op s0
        = (inl e,
           {| stack := stack s; heap := h; transfers := transfers s;
              warnings :=
                warnings s ++
                (if is_read (alias_info schema_ret)
                 then [{| warn_operator := operator_name (schema op);
                          warn_device := impl_device impl |}]
                 else []) |}))
  /\ (forall idx r s t schema_ret,
        cpu_fallback_until B op idx s0 = (inr r, s) ->
        returns (schema op) !! idx = Some schema_ret ->
        is_write (alias_info schema_ret) = true ->
        stack s !! (length (stack s) - length (returns (schema op)) + idx)
          = Some (IVTensor t) ->
        defined t = true ->
        (forall j, ~ alias_match (arguments (schema op)) r (alias_info schema_ret) j) ->
        cpu_fallback B op s0
        = (inl (SchemaInconsistency (operator_name (schema op)) schema_ret), s)).
Proof.
  split; [|split; [|split; [|split; [|split]]]].
  - intros k ab acc s ts h Huntil Hk Hslot Hfail.
    destruct (relocate_until_inv op k s0 ab acc s Huntil) as [Hb Hloop].
    unfold cpu_fallback. apply bind_inl.
    unfold relocate_inputs. cbv zeta. rewrite (bind_inr _ _ _ _ _ Hb).
    replace (length (arguments (schema op)))
      with (k + S (length (arguments (schema op)) - S k)) by lia.
    rewrite seq_split_at. apply bind_inl. rewrite foldM_app.
    rewrite (bind_inr _ _ _ _ _ Hloop). simpl. apply bind_inl.
    unfold relocate_argument.
    rewrite (bind_inr _ _ _ _ _ (stack_at_Some _ _ _ Hslot)).
    apply bind_inl. now apply to_cpu_primitive_fails.
  - intros ab acc s h Huntil Hfail.
    destruct (relocate_until_inv op _ s0 ab acc s Huntil) as [Hb Hloop].
    unfold cpu_fallback. apply bind_inl.
    unfold relocate_inputs. cbv zeta. rewrite (bind_inr _ _ _ _ _ Hb).
    rewrite (bind_inr _ _ _ _ _ Hloop). apply bind_inl.
    now apply to_cpu_primitive_fails.
  - intros r s stk h H1 Hfail. unfold cpu_fallback.
    rewrite (bind_inr _ _ _ _ _ H1). apply bind_inl.
    unfold call_redispatchBoxed. now rewrite Hfail.
  - intros k r s idx schema_arg src dst h Hcopying Hidx Harg Hw Hsrc Hdst Hfail.
    destruct (cpu_fallback_copying_inv op k s0 r s Hcopying) as (s1 & s2 & H1 & H2 & Hloop).
    unfold cpu_fallback.
    rewrite (bind_inr _ _ _ _ _ H1), (bind_inr _ _ _ _ _ H2). apply bind_inl.
    unfold copy_back. apply lookup_lt_Some in Hidx as Hlt.
    replace (length (tensor_args_indices r))
      with (k + S (length (tensor_args_indices r) - S k)) by lia.
    rewrite seq_split_at, forM_app. rewrite (bind_inr _ _ _ _ _ Hloop).
    rewrite forM_cons. apply bind_inl. unfold copy_back_argument.
    rewrite (bind_inr _ _ _ _ _ (vec_at_Some _ _ _ _ Hidx)).
    rewrite (bind_inr _ _ _ _ _ (vec_at_Some _ _ _ _ Harg)). rewrite Hw.
    rewrite (bind_inr _ _ _ _ _ (vec_at_Some _ _ _ _ Hsrc)).
    rewrite (bind_inr _ _ _ _ _ (vec_at_Some _ _ _ _ Hdst)).
    now rewrite call_copy_eq, Hfail.
  - intros idx r s t schema_ret first impl h Huntil Hret Hw Hslot Hd Hfirst Himpl Hfail.
    assert (Hidx : idx < length (returns (schema op))) by now apply lookup_lt_Some in Hret.
    pose proof (resolve_return_to_fails B op r _ idx s t schema_ret first impl e h
                  Hslot Hd Hret Hw Hfirst Himpl Hfail) as Hstep.
    exact (cpu_fallback_after_return B op idx s0 r s (inl e) _ Huntil Hidx Hstep).
  - intros idx r s t schema_ret Huntil Hret Hw Hslot Hd Hnone.
    assert (Hidx : idx < length (returns (schema op))) by now apply lookup_lt_Some in Hret.
    destruct (write_alias_resolution B op s0 s r idx t schema_ret
                Huntil Hret Hw Hslot Hd) as [Hcases _].
    destruct Hcases as [(i & original & Hm & _)|[_ Hres]].
    + exfalso. exact (Hnone i Hm).
    + exact (cpu_fallback_after_return B op idx s0 r s (inl _) _ Huntil Hidx Hres).
Qed.

End Failures.

(** ** The reference backend at work *)




(** C5 fails as stated: on the empty list [to_cpu] does call the transfer
    primitive, as the trace of its calls shows. *)
Lemma to_cpu_empty_list_calls_primitive :
  Forall (fun t => defined t = false) []
  /\ transfers (to_cpu reference_backend [] (state0 [])).2 <> transfers (state0 []).
Proof. split; [constructor|]. vm_compute. discriminate. Qed.

(** C9 fails as stated: the call on the malformed [neg_] fails in step 4,
    after the arguments were taken off the stack and after step 3 wrote the
    host result into the caller's tensor. *)
Lemma failed_call_leaves_stack_and_input_changed :
  exists e s',
    cpu_fallback reference_backend op_neg_bad call_unary = (inl e, s')
    /\ stack s' <> stack call_unary
    /\ tensor_data (heap s') (TensorRef 0) <> tensor_data (heap call_unary) (TensorRef 0).
Proof.
  eexists. eexists. split; [vm_compute; reflexivity|].
  split; vm_compute; discriminate.
Qed.


(** C6 fails as stated: [view_second] is called with an undefined tensor in
    its first tensor argument.  The host kernel leaves a defined tensor in
    the return slot, whose annotation is Read; the call stops there with the
    error of [device], no advisory is emitted and the slot keeps the host
    tensor. *)
Lemma read_alias_return_of_undefined_first_argument_aborts :
  exists r s,
    cpu_fallback_until second_backend op_view_second 0 call_second = (inr r, s)
    /\ tensor_args r !! 0 = Some Undefined
    /\ returns (schema op_view_second) = [{| arg_name := ""; alias_info := read_a |}]
    /\ stack s !! (length (stack s) - length (returns (schema op_view_second)) + 0)
       = Some (IVTensor (TensorRef 3))
    /\ cpu_fallback second_backend op_view_second call_second = (inl NoDevice, s)
    /\ warnings s = [].
Proof.
  eexists. eexists. split; [vm_compute; reflexivity|].
  repeat split; vm_compute; reflexivity.
Qed.


Lemma to_cpu_relocates_defined_entries_witness :
  exists r,
    (to_cpu reference_backend [Undefined; TensorRef 1; Undefined; TensorRef 0]
       (state0 [])).1 = inr r
    /\ length r = 4
    /\ r !! 0 = Some Undefined
    /\ r !! 1 = Some (TensorRef 2).
Proof.
  destruct (to_cpu_relocates_defined_entries reference_backend
              [Undefined; TensorRef 1; Undefined; TensorRef 0] (state0 [])
              [TensorRef 2; TensorRef 3]
              (to_cpu_spec [TensorRef 1; TensorRef 0] heap0).2)
    as (r & Hrun & Hlen & Hat & _); [vm_compute; reflexivity|reflexivity|].
  exists r. rewrite Hrun. split; [reflexivity|]. split; [exact Hlen|].
  split; [exact (Hat 0 Undefined eq_refl)|exact (Hat 1 (TensorRef 1) eq_refl)].
Defined.

Lemma to_cpu_without_defined_entry_witness :
  transfers (to_cpu reference_backend [Undefined; Undefined] (state0 [])).2 = [[]].
Proof.
  destruct (to_cpu_without_defined_entry reference_backend
              [Undefined; Undefined] (state0 [])) as [H _].
  - repeat constructor.
  - exact H.
Defined.

Lemma substituted_input_is_first_defined_match_witness :
  let s := (cpu_fallback_until reference_backend op_add_ 0 call_binary).2 in
  resolve_return reference_backend op_add_ relocation_binary 1 0 s
  = (inr tt, set_stack (<[1 := IVTensor (TensorRef 0)]> (stack s)) s).
Proof.
  intros s.
  assert (Hfirst : alias_match (arguments (schema op_add_)) relocation_binary write_a 0).
  { exists 0, (TensorRef 2), {| arg_name := "self"; alias_info := write_a |}.
    repeat split. }
  destruct (substituted_input_is_first_defined_match reference_backend op_add_
              call_binary s relocation_binary
              0 (TensorRef 2) {| arg_name := ""; alias_info := write_a |})
    as [[(i & original & _ & Hbefore & Ho & _ & Hres)|[Hnone _]] _].
  1-5: vm_compute; reflexivity.
  - destruct i as [|i]; [|exfalso; apply (Hbefore 0); [lia|exact Hfirst]].
    inversion Ho; subst original. exact Hres.
  - exfalso. exact (Hnone 0 Hfirst).
Defined.

Lemma write_alias_return_holds_original_input_witness :
  let s' := (cpu_fallback reference_backend op_add_ call_binary).2 in
  exists k original schema_arg,
    arguments (schema op_add_) !! k = Some schema_arg
    /\ alias_info schema_arg = write_a
    /\ stack call_binary !! (1 + k) = Some (IVTensor original)
    /\ defined original = true
    /\ stack s' !! 1 = Some (IVTensor original).
Proof.
  intros s'.
  apply (write_alias_return_holds_original_input reference_backend op_add_
           call_binary (cpu_fallback_until reference_backend op_add_ 0 call_binary).2
           s' relocation_binary 0 (TensorRef 2)
           {| arg_name := ""; alias_info := write_a |});
    vm_compute; reflexivity.
Defined.

Lemma mismatched_write_alias_return_is_fatal_witness :
  (cpu_fallback reference_backend op_neg_bad call_unary).1
  = inl (SchemaInconsistency "neg_" {| arg_name := ""; alias_info := write_b |}).
Proof.
  rewrite (mismatched_write_alias_return_is_fatal reference_backend op_neg_bad
             call_unary (cpu_fallback_until reference_backend op_neg_bad 0 call_unary).2
             {| tensor_args := [TensorRef 0];
                tensor_args_indices := [0];
                cpu_tensors := [TensorRef 2] |}
             0 (TensorRef 2) {| arg_name := ""; alias_info := write_b |}).
  - reflexivity.
  - vm_compute; reflexivity.
  - vm_compute; reflexivity.
  - vm_compute; reflexivity.
  - vm_compute; reflexivity.
  - vm_compute; reflexivity.
  - intros [|[|i]] k schema_arg Hk Hsa; [|discriminate|discriminate].
    inversion Hk; subst k. inversion Hsa; subst schema_arg. discriminate.
Defined.


Lemma read_alias_return_warns_then_copies_witness :
  cpu_fallback_until reference_backend op_view_as 1 call_binary
  = (inr relocation_binary,
     (cpu_fallback reference_backend op_view_as call_binary).2)
  /\ warnings (cpu_fallback reference_backend op_view_as call_binary).2
     = [{| warn_operator := "view_as"; warn_device := Accelerator 0 |}].
Proof.
  pose proof (read_alias_return_warns_then_copies reference_backend op_view_as
                call_binary
                (cpu_fallback_until reference_backend op_view_as 0 call_binary).2
                relocation_binary 0 (TensorRef 4)
                {| arg_name := ""; alias_info := read_a |}) as H.
  cbv zeta in H. destruct H as (Hcopy & _).
  1-5: vm_compute; reflexivity.
  destruct (Hcopy (TensorRef 0)
              {| impl_device := Accelerator 0; impl_storage := 0; impl_sizes := [3] |}
              (TensorRef 5)
              (heap (cpu_fallback reference_backend op_view_as call_binary).2))
    as (Hnext & _ & _).
  1-3: vm_compute; reflexivity.
  rewrite Hnext. split; vm_compute; reflexivity.
Defined.


Lemma first_tensor_argument_access_witness :
  exists first,
    forall s,
      first_tensor_arg {| tensor_args := [TensorRef 0];
                          tensor_args_indices := [0];
                          cpu_tensors := [TensorRef 2] |} s
      = (inr first, s).
Proof.
  destruct (first_tensor_argument_access reference_backend op_neg call_unary
              (relocate_inputs reference_backend op_neg call_unary).2
              {| tensor_args := [TensorRef 0];
                 tensor_args_indices := [0];
                 cpu_tensors := [TensorRef 2] |}) as [Hin _].
  - vm_compute; reflexivity.
  - apply Hin. exists 0, (TensorRef 0). reflexivity.
Defined.

Lemma failure_is_that_of_first_failing_step_witness :
  cpu_fallback failing_transfer_backend op_cat call_cat
  = (inl (PrimitiveError "transfer failed"),
     after_transfer [TensorRef 0; TensorRef 1] (heap call_cat) call_cat)
  /\ cpu_fallback failing_transfer_backend op_add_ call_binary
     = (inl (PrimitiveError "transfer failed"),
        after_transfer [TensorRef 0; TensorRef 1] (heap call_binary) call_binary)
  /\ cpu_fallback failing_copy_backend op_add_ call_binary
     = (inl (PrimitiveError "copy failed"),
        (cpu_fallback_copying failing_copy_backend op_add_ 0 call_binary).2)
  /\ cpu_fallback failing_to_backend op_view_as call_binary
     = (inl (PrimitiveError "to failed"),
        (warn {| warn_operator := "view_as"; warn_device := Accelerator 0 |}
           (cpu_fallback_until failing_to_backend op_view_as 0 call_binary).2).2).
Proof.
  split; [|split; [|split]].
  - destruct (failure_is_that_of_first_failing_step failing_transfer_backend
                op_cat call_cat (PrimitiveError "transfer failed")) as (Hlist & _).
    rewrite (Hlist 0 1 ([], []) call_cat [TensorRef 0; Undefined; TensorRef 1]
               (heap call_cat)).
    + reflexivity.
    + vm_compute; reflexivity.
    + simpl; lia.
    + vm_compute; reflexivity.
    + vm_compute; reflexivity.
  - destruct (failure_is_that_of_first_failing_step failing_transfer_backend
                op_add_ call_binary (PrimitiveError "transfer failed"))
      as (_ & Hbatch & _).
    rewrite (Hbatch 1 ([TensorRef 0; TensorRef 1], [0; 1]) call_binary
               (heap call_binary)).
    + reflexivity.
    + vm_compute; reflexivity.
    + vm_compute; reflexivity.
  - destruct (failure_is_that_of_first_failing_step failing_copy_backend
                op_add_ call_binary (PrimitiveError "copy failed"))
      as (_ & _ & _ & Hcopy & _).
    rewrite (Hcopy 0 relocation_binary
               (cpu_fallback_copying failing_copy_backend op_add_ 0 call_binary).2
               0 {| arg_name := "self"; alias_info := write_a |}
               (TensorRef 2) (TensorRef 0)
               (heap (cpu_fallback_copying failing_copy_backend op_add_ 0 call_binary).2)).
    + vm_compute; reflexivity.
    + vm_compute; reflexivity.
    + reflexivity.
    + reflexivity.
    + reflexivity.
    + reflexivity.
    + reflexivity.
    + vm_compute; reflexivity.
  - destruct (failure_is_that_of_first_failing_step failing_to_backend
                op_view_as call_binary (PrimitiveError "to failed"))
      as (_ & _ & _ & _ & Hto & _).
    rewrite (Hto 0 relocation_binary
               (cpu_fallback_until failing_to_backend op_view_as 0 call_binary).2
               (TensorRef 4) {| arg_name := ""; alias_info := read_a |}
               (TensorRef 0)
               {| impl_device := Accelerator 0; impl_storage := 0; impl_sizes := [3] |}
               (heap (cpu_fallback_until failing_to_backend op_view_as 0 call_binary).2)).
    + vm_compute; reflexivity.
    + vm_compute; reflexivity.
    + reflexivity.
    + reflexivity.
    + vm_compute; reflexivity.
    + reflexivity.
    + reflexivity.
    + vm_compute; reflexivity.
    + vm_compute; reflexivity.
Defined.

(** ** More on [to_cpu] *)

Section ToCpuMore.

Context (B : Backend).

Lemma to_cpu_merge_short (tensors : list Tensor) :
  forall i pos cv cpu,
    pos <= length cv ->
    length cv < pos + length (List.filter defined tensors) ->
    to_cpu_merge i pos (defined <$> tensors) cv cpu = inl OutOfBounds.
Proof.
  induction tensors as [|t rest IH]; intros i pos cv cpu Hpos Hshort; simpl in *.
  - lia.
  - destruct (defined t) eqn:Hd; simpl in Hshort.
    + destruct (cv !! pos) as [c|] eqn:Hc; [|reflexivity].
      apply lookup_lt_Some in Hc. apply IH; lia.
    + apply IH; lia.
Qed.

(** Whatever list it is given and whatever the primitive does, [to_cpu]
    calls [at::_to_cpu] exactly once, on the defined entries in their order;
    it changes the heap as that one call does and leaves the stack and the
    warnings alone. *)
Theorem to_cpu_calls_primitive_once (tensors : list Tensor) (s : State) :
  transfers (to_cpu B tensors s).2 = transfers s ++ [List.filter defined tensors]
  /\ heap (to_cpu B tensors s).2
     = (at_to_cpu B (List.filter defined tensors) (heap s)).2
  /\ stack (to_cpu B tensors s).2 = stack s
  /\ warnings (to_cpu B tensors s).2 = warnings s.
Proof. rewrite to_cpu_frame. repeat split. Qed.

(** When [at::_to_cpu] returns fewer tensors than it was given, the second
    loop of [to_cpu] reads past the end of [cpu_valid_tensors]. *)
Theorem to_cpu_short_transfer_out_of_bounds
    (tensors : list Tensor) (s : State) (out : list Tensor) (h : Heap) :
  at_to_cpu B (List.filter defined tensors) (heap s) = (inr out, h) ->
  length out < length (List.filter defined tensors) ->
  to_cpu B tensors s
  = (inl OutOfBounds, after_transfer (List.filter defined tensors) h s).
Proof.
  intros Hprim Hshort. rewrite to_cpu_unfold. unfold bind.
  rewrite call_to_cpu_eq, Hprim. simpl.
  rewrite to_cpu_merge_short; [reflexivity|lia|simpl; lia].
Qed.

(** When [at::_to_cpu] returns more tensors than it was given, [to_cpu] ends
    normally and uses the first ones only: the result is the one it has for
    the returned list cut to the number of defined entries. *)
Theorem to_cpu_long_transfer_ignores_rest
    (tensors : list Tensor) (s : State) (out : list Tensor) (h : Heap) :
  at_to_cpu B (List.filter defined tensors) (heap s) = (inr out, h) ->
  length (List.filter defined tensors) <= length out ->
  exists r,
    to_cpu B tensors s
      = (inr r, after_transfer (List.filter defined tensors) h s)
    /\ length r = length tensors
    /\ forall i t, tensors !! i = Some t ->
         r !! i =
           if defined t
           then take (length (List.filter defined tensors)) out
                  !! length (List.filter defined (take i tensors))
           else Some t.
Proof.
  intros Hprim Hlen.
  destruct (to_cpu_merge_total tensors 0 0 out (replicate (length tensors) Undefined))
    as [r Hm]; [simpl; lia|].
  assert (Hrun : to_cpu B tensors s
                 = (inr r, after_transfer (List.filter defined tensors) h s)).
  { rewrite to_cpu_unfold. unfold bind. rewrite call_to_cpu_eq, Hprim. simpl.
    now rewrite Hm. }
  exists r. split; [exact Hrun|].
  destruct (to_cpu_inr_inv B _ _ _ _ Hrun) as (cv & h' & Hprim' & _ & Hl & Hat).
  rewrite Hprim in Hprim'. inversion Hprim'; subst cv h'. clear Hprim'.
  split; [exact Hl|]. intros i t Ht. rewrite (Hat i t Ht).
  destruct (defined t) eqn:Hd; [|destruct t; [reflexivity|discriminate]].
  rewrite lookup_take_lt; [reflexivity|].
  rewrite <- (take_drop i tensors) at 2.
  rewrite List.filter_app, length_app.
  rewrite (drop_S _ _ _ Ht). simpl. rewrite Hd. simpl. lia.
Qed.

Lemma filter_all_defined (tensors : list Tensor) :
  Forall (fun t => defined t = true) tensors ->
  List.filter defined tensors = tensors.
Proof.
  induction 1 as [|t rest Ht _ IH]; simpl; [reflexivity|].
  now rewrite Ht, IH.
Qed.

(** On a list without undefined entries [to_cpu] is [at::_to_cpu]: it hands
    over the whole list and returns what the primitive returned. *)
Theorem to_cpu_all_defined_is_primitive
    (tensors : list Tensor) (s : State) (out : list Tensor) (h : Heap) :
  Forall (fun t => defined t = true) tensors ->
  at_to_cpu B tensors (heap s) = (inr out, h) ->
  length out = length tensors ->
  to_cpu B tensors s = (inr out, after_transfer tensors h s).
Proof.
  intros Hall Hprim Hlen.
  pose proof (filter_all_defined tensors Hall) as Hf.
  destruct (to_cpu_merge_total tensors 0 0 out (replicate (length tensors) Undefined))
    as [r Hm]; [rewrite Hf; simpl; lia|].
  assert (Hrun : to_cpu B tensors s = (inr r, after_transfer tensors h s)).
  { rewrite to_cpu_unfold. unfold bind. rewrite call_to_cpu_eq, Hf, Hprim. simpl.
    now rewrite Hm. }
  rewrite Hrun. f_equal. f_equal.
  destruct (to_cpu_inr_inv B _ _ _ _ Hrun) as (cv & h' & Hprim' & _ & Hl & Hat).
  rewrite Hf, Hprim in Hprim'. inversion Hprim'; subst cv h'. clear Hprim'.
  apply list_eq. intros i.
  destruct (tensors !! i) as [t|] eqn:Ht.
  - rewrite (Hat i t Ht). rewrite Forall_forall in Hall.
    rewrite (Hall t (list_elem_of_lookup_2 _ _ _ Ht)).
    rewrite filter_all_defined.
    + rewrite length_take. apply lookup_lt_Some in Ht. f_equal. lia.
    + apply Forall_forall. intros x Hx. apply Hall.
      apply elem_of_take in Hx. destruct Hx as (j & Hj & _).
      eapply list_elem_of_lookup_2, Hj.
  - apply lookup_ge_None in Ht.
    rewrite (proj2 (lookup_ge_None r i)) by lia.
    symmetry. apply lookup_ge_None. lia.
Qed.

End ToCpuMore.

(** ** What the steps leave alone *)

Section Preservation.

Context (B : Backend).

(** A property that the first part keeps, and the second keeps from every
    result of the first, is kept by the two in sequence, however they end. *)
Lemma bind_preserves {A C} (P : State -> Prop) (m : M A) (k : A -> M C) (s : State) :
  P (m s).2 ->
  (forall a s1, m s = (inr a, s1) -> P (k a s1).2) ->
  P (bind m k s).2.
Proof.
  intros Hm Hk. unfold bind. destruct (m s) as [[e|a] s1] eqn:E; simpl in *.
  - exact Hm.
  - now apply Hk.
Qed.

Lemma vec_at_state {A} (v : list A) (i : nat) (s : State) : (vec_at v i s).2 = s.
Proof. unfold vec_at. now destruct (v !! i). Qed.

Lemma stack_at_state (i : nat) (s : State) : (stack_at i s).2 = s.
Proof. unfold stack_at. apply vec_at_state. Qed.

Lemma last_begin_state (n : nat) (s : State) : (last_begin n s).2 = s.
Proof. unfold last_begin. now destruct (decide _). Qed.

Lemma vec_at_result {A} (v : list A) (i : nat) (s s1 : State) r :
  vec_at v i s = (r, s1) -> s1 = s.
Proof. intros H. pose proof (vec_at_state v i s) as E. now rewrite H in E. Qed.


Lemma forM_preserves {A} (P : State -> Prop) (f : A -> M unit) (l : list A) :
  (forall x s, P s -> P (f x s).2) ->
  forall s, P s -> P (forM l f s).2.
Proof.
  intros Hf s HP. unfold forM. apply (foldM_preserves P); [|exact HP].
  intros [] x s1. apply Hf.
Qed.


Lemma copy_back_preserves (P : State -> Prop) op r :
  (forall src dst s, P s -> P (call_copy_from_and_resize B src dst s).2) ->
  forall s, P s -> P (copy_back B op r s).2.
Proof.
  intros Hcopy s HP. unfold copy_back. apply forM_preserves; [|exact HP].
  intros i s1 H1. unfold copy_back_argument.
  apply bind_preserves; [now rewrite vec_at_state|].
  intros k sa Ha. apply vec_at_result in Ha. subst sa.
  apply bind_preserves; [now rewrite vec_at_state|].
  intros schema_arg sa Ha. apply vec_at_result in Ha. subst sa.
  destruct (is_write (alias_info schema_arg)); [|exact H1].
  apply bind_preserves; [now rewrite vec_at_state|].
  intros src sa Ha. apply vec_at_result in Ha. subst sa.
  apply bind_preserves; [now rewrite vec_at_state|].
  intros dst sa Ha. apply vec_at_result in Ha. subst sa.
  now apply Hcopy.
Qed.

Lemma relocate_inputs_preserves (P : State -> Prop) op :
  (forall i v s, P s -> P (stack_set i v s).2) ->
  (forall ts s, P s -> P (to_cpu B ts s).2) ->
  forall s, P s -> P (relocate_inputs B op s).2.
Proof.
  intros Hset Hcpu s HP. unfold relocate_inputs.
  apply bind_preserves; [now rewrite last_begin_state|].
  intros ab sa Ha. pose proof (last_begin_state (length (arguments (schema op))) s) as E.
  rewrite Ha in E. simpl in E. subst sa.
  assert (Hloop : forall acc l s1, P s1 ->
            P (foldM (relocate_argument B ab) acc l s1).2).
  { intros acc l s1 H1. apply (foldM_preserves P); [|exact H1].
    intros acc' idx s2 H2. unfold relocate_argument.
    apply bind_preserves; [now rewrite stack_at_state|].
    intros v sb Hb. pose proof (stack_at_state (ab + idx) s2) as E.
    rewrite Hb in E. simpl in E. subst sb.
    destruct v as [|z|t|ts]; try exact H2.
    apply bind_preserves; [now apply Hcpu|].
    intros cl sb Hb'. pose proof (Hcpu ts s2 H2) as E. rewrite Hb' in E.
    apply bind_preserves; [now apply Hset|].
    intros [] sc Hc. pose proof (Hset (ab + idx) (IVTensorList cl) sb E) as E'.
    now rewrite Hc in E'. }
  apply bind_preserves; [now apply Hloop|].
  intros acc sa Ha'. pose proof (Hloop ([], []) (seq 0 (length (arguments (schema op)))) s HP) as E.
  rewrite Ha' in E.
  apply bind_preserves; [now apply Hcpu|].
  intros cpus sb Hb. pose proof (Hcpu acc.1 sa E) as E'. rewrite Hb in E'.
  assert (Hwb : forall l s1, P s1 ->
            P (forM l (fun i =>
                 let* idx := vec_at acc.2 i in
                 let* cpu_tensor := vec_at cpus i in
                 stack_set (ab + idx) (IVTensor cpu_tensor)) s1).2).
  { intros l s1 H1. apply forM_preserves; [|exact H1].
    intros i s2 H2.
    apply bind_preserves; [now rewrite vec_at_state|].
    intros k sc Hc. apply vec_at_result in Hc. subst sc.
    apply bind_preserves; [now rewrite vec_at_state|].
    intros c sc Hc. apply vec_at_result in Hc. subst sc.
    now apply Hset. }
  apply bind_preserves; [now apply Hwb|].
  intros [] sc Hc. pose proof (Hwb (seq 0 (length acc.2)) sb E') as E''.
  now rewrite Hc in E''.
Qed.

End Preservation.

(** ** More on step 3 *)

Section CopyBackMore.

Context (B : Backend).

Lemma write_pairs_inv (schema_args : list Argument) :
  forall indices cpus args c a,
    (c, a) ∈ write_pairs schema_args indices cpus args ->
    exists i k schema_arg,
      indices !! i = Some k
      /\ schema_args !! k = Some schema_arg
      /\ is_write (alias_info schema_arg) = true
      /\ cpus !! i = Some c
      /\ args !! i = Some a.
Proof.
  induction indices as [|k0 indices IH]; intros cpus args c a Hin; [inversion Hin|].
  destruct cpus as [|c0 cpus]; [inversion Hin|].
  destruct args as [|a0 args]; [inversion Hin|].
  simpl in Hin.
  assert (Hrest : (c, a) ∈ write_pairs schema_args indices cpus args ->
            exists i k schema_arg,
              (k0 :: indices) !! i = Some k
              /\ schema_args !! k = Some schema_arg
              /\ is_write (alias_info schema_arg) = true
              /\ (c0 :: cpus) !! i = Some c
              /\ (a0 :: args) !! i = Some a).
  { intros H. destruct (IH cpus args c a H) as (i & k & sa & H1 & H2 & H3 & H4 & H5).
    exists (S i), k, sa. auto. }
  destruct (schema_args !! k0) as [sa0|] eqn:Hsa0; [|now apply Hrest].
  destruct (is_write (alias_info sa0)) eqn:Hw; [|now apply Hrest].
  apply elem_of_cons in Hin. destruct Hin as [Heq|Hin]; [|now apply Hrest].
  inversion Heq; subst c a. exists 0, k0, sa0. auto.
Qed.

(** Step 3 is the copy primitive called, in argument order, on the CPU
    tensor and the original tensor of every recorded tensor argument whose
    annotation is Write, and on nothing else; whether these tensors are
    defined plays no part. *)
Theorem copy_back_copies_write_arguments_in_order
    (op : OperatorHandle) (s0 s1 : State) (r : Relocation) :
  relocate_inputs B op s0 = (inr r, s1) ->
  (forall s,
     copy_back B op r s
     = forM (recorded_write_pairs op r)
         (fun p => call_copy_from_and_resize B p.1 p.2) s)
  /\ (forall c a,
        (c, a) ∈ recorded_write_pairs op r <->
        exists i k schema_arg,
          tensor_args_indices r !! i = Some k
          /\ arguments (schema op) !! k = Some schema_arg
          /\ is_write (alias_info schema_arg) = true
          /\ cpu_tensors r !! i = Some c
          /\ tensor_args r !! i = Some a).
Proof.
  intros H. split.
  - intros s. exact (copy_back_eq B op s0 s1 r s H).
  - intros c a. split.
    + apply write_pairs_inv.
    + intros (i & k & sa & H1 & H2 & H3 & H4 & H5).
      exact (write_pairs_member _ _ _ _ i k sa c a H1 H2 H3 H4 H5).
Qed.

Lemma recorded_write_pairs_nil
    (op : OperatorHandle) (s0 s1 : State) (r : Relocation) :
  relocate_inputs B op s0 = (inr r, s1) ->
  (forall k t schema_arg,
     argument_window op s0 !! k = Some (IVTensor t) ->
     arguments (schema op) !! k = Some schema_arg ->
     is_write (alias_info schema_arg) = false) ->
  recorded_write_pairs op r = [].
Proof.
  intros H Hnone.
  destruct (recorded_write_pairs op r) as [|[c a] ps] eqn:E; [reflexivity|].
  assert (Hin : (c, a) ∈ recorded_write_pairs op r) by (rewrite E; left).
  apply write_pairs_inv in Hin. destruct Hin as (i & k & sa & Hk & Hsa & Hw & _).
  destruct (relocate_inputs_recorded B op s0 s1 r H i k Hk) as (_ & t & _ & Hs0).
  rewrite (Hnone k t sa) in Hw; [discriminate| |exact Hsa].
  unfold argument_window. now rewrite lookup_drop.
Qed.

Lemma copy_back_without_write_tensor_argument_aux
    (op : OperatorHandle) (s0 s1 : State) (r : Relocation) :
  relocate_inputs B op s0 = (inr r, s1) ->
  (forall k t schema_arg,
     argument_window op s0 !! k = Some (IVTensor t) ->
     arguments (schema op) !! k = Some schema_arg ->
     is_write (alias_info schema_arg) = false) ->
  forall s, copy_back B op r s = (inr tt, s).
Proof.
  intros H Hnone s.
  rewrite (copy_back_eq B op s0 s1 r s H), (recorded_write_pairs_nil op s0 s1 r H Hnone).
  reflexivity.
Qed.

(** When no tensor-valued argument of the call carries a Write annotation,
    step 3 calls the copy primitive not once and changes nothing; Write
    annotations on tensor list arguments do not count, the tensors of a list
    are never copied back. *)
Theorem copy_back_without_write_tensor_argument
    (op : OperatorHandle) (s0 s1 : State) (r : Relocation) :
  relocate_inputs B op s0 = (inr r, s1) ->
  (forall k t schema_arg,
     argument_window op s0 !! k = Some (IVTensor t) ->
     arguments (schema op) !! k = Some schema_arg ->
     is_write (alias_info schema_arg) = false) ->
  recorded_write_pairs op r = []
  /\ forall s, copy_back B op r s = (inr tt, s).
Proof.
  intros H Hnone. split.
  - exact (recorded_write_pairs_nil op s0 s1 r H Hnone).
  - exact (copy_back_without_write_tensor_argument_aux op s0 s1 r H Hnone).
Qed.

End CopyBackMore.

(** ** More on step 4 *)

Section ResolveMore.

Context (B : Backend).

Lemma resolve_return_skips op r rb idx s v :
  stack s !! (rb + idx) = Some v ->
  (forall t, v = IVTensor t -> defined t = false) ->
  resolve_return B op r rb idx s = (inr tt, s).
Proof.
  intros Hv Hnot. unfold resolve_return.
  rewrite (bind_inr _ _ _ _ _ (stack_at_Some _ _ _ Hv)).
  destruct v as [|z|t|ts]; try reflexivity.
  now rewrite (Hnot t eq_refl).
Qed.

(** However the call ends after step 3, step 4 has kept the length of the
    stack and every value below the return window, and has left in place
    every return that is not a defined tensor: other values, tensor lists
    and undefined tensors stay as the host kernel left them. *)
Theorem step4_touches_defined_tensor_returns_only
    (op : OperatorHandle) (s0 s3 : State) (r : Relocation) :
  let rb := length (stack s3) - length (returns (schema op)) in
  let s' := (cpu_fallback B op s0).2 in
  cpu_fallback_until B op 0 s0 = (inr r, s3) ->
  length (stack s') = length (stack s3)
  /\ (forall p, p < rb -> stack s' !! p = stack s3 !! p)
  /\ (forall idx v,
        stack s3 !! (rb + idx) = Some v ->
        (forall t, v = IVTensor t -> defined t = false) ->
        stack s' !! (rb + idx) = Some v).
Proof.
  intros rb s' H0. subst s'.
  rewrite (cpu_fallback_from B op 0 s0 r s3 H0) by lia.
  rewrite Nat.sub_0_r. fold rb.
  destruct (resolve_loop_frame B op r rb (seq 0 (length (returns (schema op)))) s3)
    as [Hlen Hout].
  split; [exact Hlen|]. split.
  - intros p Hp. apply Hout. intros j _. lia.
  - intros idx v Hv Hnot.
    apply (forM_preserves (fun s => stack s !! (rb + idx) = Some v)); [|exact Hv].
    intros x s HP. destruct (decide (x = idx)) as [->|Hne].
    + now rewrite (resolve_return_skips op r rb idx s v HP Hnot).
    + destruct (resolve_return_frame B op r rb x s) as [_ Hp].
      rewrite Hp; [exact HP|lia].
Qed.

(** The invariant of step 4 for a call whose defined tensor returns are all
    annotated Write. *)
Lemma resolve_return_only_write op r rb idx s :
  (forall j schema_ret t,
     returns (schema op) !! j = Some schema_ret ->
     stack s !! (rb + j) = Some (IVTensor t) ->
     defined t = true ->
     is_write (alias_info schema_ret) = true) ->
  let s1 := (resolve_return B op r rb idx s).2 in
  (forall j schema_ret t,
     returns (schema op) !! j = Some schema_ret ->
     stack s1 !! (rb + j) = Some (IVTensor t) ->
     defined t = true ->
     is_write (alias_info schema_ret) = true)
  /\ heap s1 = heap s /\ warnings s1 = warnings s /\ transfers s1 = transfers s.
Proof.
  intros HQ s1. subst s1.
  set (P := fun s1 : State =>
    (forall j schema_ret t,
       returns (schema op) !! j = Some schema_ret ->
       stack s1 !! (rb + j) = Some (IVTensor t) ->
       defined t = true ->
       is_write (alias_info schema_ret) = true)
    /\ heap s1 = heap s /\ warnings s1 = warnings s /\ transfers s1 = transfers s).
  change (P (resolve_return B op r rb idx s).2).
  assert (HP : P s) by (unfold P; auto).
  unfold resolve_return. unfold bind at 1. unfold stack_at, vec_at.
  destruct (stack s !! (rb + idx)) as [v|] eqn:Hv; unfold ret, throw; simpl;
    [|exact HP].
  destruct v as [|z|t|ts]; simpl; try exact HP.
  destruct (defined t) eqn:Hd; simpl; [|exact HP].
  unfold bind at 1. unfold vec_at.
  destruct (returns (schema op) !! idx) as [schema_ret|] eqn:Hret;
    unfold ret, throw; simpl; [|exact HP].
  rewrite (HQ idx schema_ret t Hret Hv Hd).
  destruct (find_alias _ _ _ _ _) as [e|[i|]]; simpl; try exact HP.
  unfold bind at 1. unfold vec_at.
  destruct (tensor_args r !! i) as [original|]; unfold ret, throw; simpl;
    [|exact HP].
  unfold stack_set. destruct (decide _) as [Hlt|]; simpl; [|exact HP].
  unfold P. simpl. split; [|auto]. intros j sr t' Hj Hslot Hd'.
  destruct (decide (j = idx)) as [->|Hne].
  - rewrite Hret in Hj. inversion Hj; subst sr. exact (HQ idx schema_ret t Hret Hv Hd).
  - rewrite list_lookup_insert_ne in Hslot by lia. exact (HQ j sr t' Hj Hslot Hd').
Qed.

(** For a call in which every defined tensor the host kernel returned is
    annotated Write, step 4 never calls [to] and emits no warning: however
    it ends, heap, warnings and transfer calls are those after step 3. *)
Theorem step4_of_mutable_returns_allocates_nothing
    (op : OperatorHandle) (s0 s3 : State) (r : Relocation) :
  cpu_fallback_until B op 0 s0 = (inr r, s3) ->
  only_write_returns op s3 ->
  heap (cpu_fallback B op s0).2 = heap s3
  /\ warnings (cpu_fallback B op s0).2 = warnings s3
  /\ transfers (cpu_fallback B op s0).2 = transfers s3.
Proof.
  intros H0 Honly.
  rewrite (cpu_fallback_from B op 0 s0 r s3 H0) by lia.
  set (rb := length (stack s3) - length (returns (schema op))).
  pose proof (forM_preserves
    (fun s =>
       (forall j schema_ret t,
          returns (schema op) !! j = Some schema_ret ->
          stack s !! (rb + j) = Some (IVTensor t) ->
          defined t = true ->
          is_write (alias_info schema_ret) = true)
       /\ heap s = heap s3 /\ warnings s = warnings s3
       /\ transfers s = transfers s3)
    (resolve_return B op r rb)
    (seq 0 (length (returns (schema op)) - 0))) as Hinv.
  destruct (Hinv) with (s := s3) as (_ & Hh & Hw & Ht).
  - intros x s (HQ & Hh & Hw & Ht).
    destruct (resolve_return_only_write op r rb x s HQ) as (HQ' & Hh' & Hw' & Ht').
    repeat split; try congruence. exact HQ'.
  - split; [exact Honly|auto].
  - auto.
Qed.

Lemma copy_to_device_warnings r rb idx t s :
  warnings (copy_to_device B r rb idx t s).2 = warnings s.
Proof.
  unfold copy_to_device.
  apply (bind_preserves (fun s1 => warnings s1 = warnings s));
    [unfold first_tensor_arg; now rewrite vec_at_state|].
  intros first sa Ha. unfold first_tensor_arg in Ha.
  apply vec_at_result in Ha. subst sa.
  apply (bind_preserves (fun s1 => warnings s1 = warnings s));
    [now rewrite device_frame|].
  intros d sb Hb. pose proof (device_frame first s) as E. rewrite Hb in E.
  simpl in E. subst sb.
  apply (bind_preserves (fun s1 => warnings s1 = warnings s));
    [now rewrite call_to_eq|].
  intros moved sc Hc. rewrite call_to_eq in Hc. inversion Hc; subst sc.
  unfold stack_set. now destruct (decide _).
Qed.

(** An iteration of step 4 emits at most one warning, for a return that is
    annotated Read, and the warning names the operator. *)
Lemma resolve_return_warnings op r rb idx s :
  warnings (resolve_return B op r rb idx s).2 = warnings s
  \/ exists schema_ret d,
       returns (schema op) !! idx = Some schema_ret
       /\ is_read (alias_info schema_ret) = true
       /\ warnings (resolve_return B op r rb idx s).2
          = warnings s ++ [{| warn_operator := operator_name (schema op);
                              warn_device := d |}].
Proof.
  set (P := fun s1 : State =>
    warnings s1 = warnings s
    \/ exists schema_ret d,
         returns (schema op) !! idx = Some schema_ret
         /\ is_read (alias_info schema_ret) = true
         /\ warnings s1
            = warnings s ++ [{| warn_operator := operator_name (schema op);
                                warn_device := d |}]).
  change (P (resolve_return B op r rb idx s).2).
  assert (HP : P s) by (now left).
  unfold resolve_return. unfold bind at 1. unfold stack_at, vec_at.
  destruct (stack s !! (rb + idx)) as [v|]; unfold ret, throw; simpl; [|exact HP].
  destruct v as [|z|t|ts]; simpl; try exact HP.
  destruct (defined t); simpl; [|exact HP].
  unfold bind at 1. unfold vec_at.
  destruct (returns (schema op) !! idx) as [schema_ret|] eqn:Hret;
    unfold ret, throw; simpl; [|exact HP].
  destruct (is_write (alias_info schema_ret)).
  - destruct (find_alias _ _ _ _ _) as [e|[i|]]; simpl; try exact HP.
    unfold bind at 1. unfold vec_at.
    destruct (tensor_args r !! i) as [original|]; unfold ret, throw; simpl;
      [|exact HP].
    left. unfold stack_set. now destruct (decide _).
  - unfold bind at 1. destruct (is_read (alias_info schema_ret)) eqn:Hr.
    + unfold bind at 1. unfold first_tensor_arg, vec_at.
      destruct (tensor_args r !! 0) as [first|]; unfold ret, throw; simpl;
        [|exact HP].
      unfold bind at 1.
      pose proof (device_frame first s) as Hdf.
      destruct (device first s) as [[e|d] sd]; simpl in Hdf; subst sd; simpl;
        [exact HP|].
      right. exists schema_ret, d. split; [reflexivity|]. split; [exact Hr|].
      now rewrite copy_to_device_warnings.
    + left. unfold ret. now rewrite copy_to_device_warnings.
Qed.

Lemma resolve_loop_warnings op r rb :
  forall len k s,
    exists ws,
      warnings (forM (seq k len) (resolve_return B op r rb) s).2 = warnings s ++ ws
      /\ Forall (fun w => warn_operator w = operator_name (schema op)) ws
      /\ length ws
         <= length (List.filter (fun schema_ret => is_read (alias_info schema_ret))
                      (take len (drop k (returns (schema op))))).
Proof.
  induction len as [|len IH]; intros k s.
  - exists []. simpl. rewrite app_nil_r. repeat split; [constructor|lia].
  - simpl seq. rewrite forM_cons. unfold bind.
    pose proof (resolve_return_warnings op r rb k s) as Hstep.
    destruct (resolve_return B op r rb k s) as [[e|[]] s1] eqn:E; simpl in Hstep.
    + simpl. destruct Hstep as [Hs|(sr & d & Hret & Hr & Hs)].
      * exists []. rewrite app_nil_r. repeat split; [exact Hs|constructor|simpl; lia].
      * eexists. split; [exact Hs|]. split; [repeat constructor|].
        rewrite (drop_S _ _ _ Hret). simpl. rewrite Hr. simpl. lia.
    + destruct (IH (S k) s1) as (ws & Hws & Hall & Hlen).
      destruct Hstep as [Hs|(sr & d & Hret & Hr & Hs)].
      * exists ws. rewrite Hws, Hs. split; [reflexivity|]. split; [exact Hall|].
        destruct (returns (schema op) !! k) as [sr|] eqn:Hret.
        -- rewrite (drop_S _ _ _ Hret). simpl.
           destruct (is_read (alias_info sr)); simpl; lia.
        -- apply lookup_ge_None in Hret.
           rewrite drop_ge in Hlen by lia. rewrite take_nil in Hlen. simpl in Hlen.
           lia.
      * eexists. rewrite Hws, Hs, <- (assoc_L (++)). split; [reflexivity|].
        split; [constructor; [reflexivity|exact Hall]|].
        rewrite (drop_S _ _ _ Hret). simpl. rewrite Hr. simpl. lia.
Qed.

(** However a call ends, the warnings it has added all name the operator,
    and there are at most as many of them as the schema has returns
    annotated Read: steps 1 to 3 never warn, and a schema without a Read
    return gives no warning at all. *)
Theorem warnings_only_for_read_returns (op : OperatorHandle) (s0 : State) :
  exists ws,
    warnings (cpu_fallback B op s0).2 = warnings s0 ++ ws
    /\ Forall (fun w => warn_operator w = operator_name (schema op)) ws
    /\ length ws
       <= length (List.filter (fun schema_ret => is_read (alias_info schema_ret))
                    (returns (schema op))).
Proof.
  assert (Hkeep : forall s, warnings s = warnings s0 ->
            exists ws, warnings s = warnings s0 ++ ws
              /\ Forall (fun w => warn_operator w = operator_name (schema op)) ws
              /\ length ws
                 <= length (List.filter (fun sr => is_read (alias_info sr))
                              (returns (schema op)))).
  { intros s Hs. exists []. rewrite app_nil_r. repeat split; [exact Hs|constructor|simpl; lia]. }
  unfold cpu_fallback. unfold bind at 1.
  pose proof (relocate_inputs_preserves B (fun s => warnings s = warnings s0) op) as H1.
  specialize (H1 (fun i v s Hs => ltac:(unfold stack_set; destruct (decide _); exact Hs))).
  specialize (H1 (fun ts s Hs => ltac:(rewrite to_cpu_frame; exact Hs)) s0 eq_refl).
  destruct (relocate_inputs B op s0) as [[e|r] s1]; simpl in H1; [now apply Hkeep|].
  unfold bind at 1.
  assert (H2 : warnings (call_redispatchBoxed B op s1).2 = warnings s0).
  { unfold call_redispatchBoxed.
    now destruct (redispatchBoxed B op (stack s1) (heap s1)) as [res [stk h]]. }
  destruct (call_redispatchBoxed B op s1) as [[e|[]] s2]; simpl in H2;
    [now apply Hkeep|].
  unfold bind at 1.
  pose proof (copy_back_preserves B (fun s => warnings s = warnings s0) op r) as H3.
  specialize (H3 (fun src dst s Hs => ltac:(rewrite call_copy_eq; exact Hs)) s2 H2).
  destruct (copy_back B op r s2) as [[e|[]] s3]; simpl in H3; [now apply Hkeep|].
  unfold resolve_returns, resolve_returns_upto. unfold bind, last_begin.
  destruct (decide _); [|now apply Hkeep].
  destruct (resolve_loop_warnings op r
              (length (stack s3) - length (returns (schema op)))
              (length (returns (schema op))) 0 s3) as (ws & Hws & Hall & Hlen).
  exists ws. rewrite Hws, H3. split; [reflexivity|]. split; [exact Hall|].
  rewrite drop_0, take_ge in Hlen by lia. exact Hlen.
Qed.

End ResolveMore.

(** ** More on step 1 *)

Section RelocateMore.

Context (B : Backend).








End RelocateMore.

Section RelocateResults.

Context (B : Backend).



(** The two windows must fit the stack.  On a stack with fewer values than
    the schema has arguments the call reads outside the stack at once, with
    nothing done; when the host kernel leaves fewer values than the schema
    has returns, step 4 does so after steps 1 to 3 have run. *)
Theorem windows_must_fit_the_stack (op : OperatorHandle) (s : State) :
  (length (stack s) < length (arguments (schema op)) ->
     cpu_fallback B op s = (inl OutOfBounds, s))
  /\ (forall r s1 s2 s3,
        relocate_inputs B op s = (inr r, s1) ->
        call_redispatchBoxed B op s1 = (inr tt, s2) ->
        copy_back B op r s2 = (inr tt, s3) ->
        length (stack s2) < length (returns (schema op)) ->
        stack s3 = stack s2
        /\ cpu_fallback B op s = (inl OutOfBounds, s3)).
Proof.
  split.
  - intros Hshort. unfold cpu_fallback, relocate_inputs.
    unfold bind, last_begin. destruct (decide _); [lia|reflexivity].
  - intros r s1 s2 s3 H1 H2 H3 Hshort.
    assert (Hst : stack s3 = stack s2).
    { pose proof (copy_back_preserves B (fun s => stack s = stack s2) op r
        (fun src dst s Hs => ltac:(rewrite call_copy_eq; exact Hs)) s2 eq_refl) as E.
      now rewrite H3 in E. }
    split; [exact Hst|].
    unfold cpu_fallback.
    rewrite (bind_inr _ _ _ _ _ H1), (bind_inr _ _ _ _ _ H2), (bind_inr _ _ _ _ _ H3).
    unfold resolve_returns, resolve_returns_upto. unfold bind, last_begin.
    rewrite Hst. destruct (decide _); [lia|reflexivity].
Qed.

End RelocateResults.

(** ** The added results on concrete calls *)

Lemma to_cpu_short_transfer_out_of_bounds_witness :
  (to_cpu truncating_backend [TensorRef 0; Undefined; TensorRef 1] (state0 [])).1
  = inl OutOfBounds.
Proof.
  rewrite (to_cpu_short_transfer_out_of_bounds truncating_backend
             [TensorRef 0; Undefined; TensorRef 1] (state0 [])
             [TensorRef 2]
             (to_cpu_spec [TensorRef 0; TensorRef 1] heap0).2).
  - reflexivity.
  - vm_compute; reflexivity.
  - vm_compute; lia.
Defined.

Lemma to_cpu_long_transfer_ignores_rest_witness :
  (to_cpu padding_backend [TensorRef 0; Undefined; TensorRef 1] (state0 [])).1
  = inr [TensorRef 2; Undefined; TensorRef 3].
Proof.
  destruct (to_cpu_long_transfer_ignores_rest padding_backend
              [TensorRef 0; Undefined; TensorRef 1] (state0 [])
              [TensorRef 2; TensorRef 3; TensorRef 0]
              (to_cpu_spec [TensorRef 0; TensorRef 1] heap0).2)
    as (r & Hrun & Hlen & Hat).
  - vm_compute; reflexivity.
  - vm_compute; lia.
  - rewrite Hrun. simpl. f_equal.
    pose proof (Hat 0 _ eq_refl) as H0. pose proof (Hat 1 _ eq_refl) as H1.
    pose proof (Hat 2 _ eq_refl) as H2. vm_compute in H0, H1, H2.
    destruct r as [|a [|b [|c [|]]]]; try discriminate.
    simpl in H0, H1, H2. congruence.
Defined.

Lemma to_cpu_all_defined_is_primitive_witness :
  (to_cpu reference_backend [TensorRef 1; TensorRef 0] (state0 [])).1
  = inr [TensorRef 2; TensorRef 3].
Proof.
  rewrite (to_cpu_all_defined_is_primitive reference_backend
             [TensorRef 1; TensorRef 0] (state0 [])
             [TensorRef 2; TensorRef 3]
             (to_cpu_spec [TensorRef 1; TensorRef 0] heap0).2).
  - reflexivity.
  - repeat constructor.
  - vm_compute; reflexivity.
  - reflexivity.
Defined.

Lemma copy_back_copies_write_arguments_in_order_witness :
  copy_back reference_backend op_add_ relocation_binary call_binary
  = forM [(TensorRef 2, TensorRef 0)]
      (fun p => call_copy_from_and_resize reference_backend p.1 p.2) call_binary.
Proof.
  destruct (copy_back_copies_write_arguments_in_order reference_backend op_add_
              call_binary (relocate_inputs reference_backend op_add_ call_binary).2
              relocation_binary) as [Heq _].
  - vm_compute; reflexivity.
  - exact (Heq call_binary).
Defined.

Lemma copy_back_without_write_tensor_argument_witness :
  copy_back reference_backend op_foreach_neg_
    {| tensor_args := []; tensor_args_indices := []; cpu_tensors := [] |}
    call_foreach_neg_
  = (inr tt, call_foreach_neg_).
Proof.
  destruct (copy_back_without_write_tensor_argument reference_backend op_foreach_neg_
              call_foreach_neg_
              (relocate_inputs reference_backend op_foreach_neg_ call_foreach_neg_).2
              {| tensor_args := []; tensor_args_indices := []; cpu_tensors := [] |})
    as [_ Hid].
  - vm_compute; reflexivity.
  - intros [|[|k]] t schema_arg Hk; vm_compute in Hk; discriminate.
  - exact (Hid call_foreach_neg_).
Defined.

Lemma step4_touches_defined_tensor_returns_only_witness :
  stack (cpu_fallback reference_backend op_add_ call_binary).2 !! 0 = Some (IVInt 7).
Proof.
  destruct (step4_touches_defined_tensor_returns_only reference_backend op_add_
              call_binary
              (cpu_fallback_until reference_backend op_add_ 0 call_binary).2
              relocation_binary) as (_ & Hbelow & _).
  - vm_compute; reflexivity.
  - rewrite Hbelow; [reflexivity|vm_compute; lia].
Defined.

Lemma step4_of_mutable_returns_allocates_nothing_witness :
  heap (cpu_fallback reference_backend op_add_ call_binary).2
  = heap (cpu_fallback_until reference_backend op_add_ 0 call_binary).2.
Proof.
  destruct (step4_of_mutable_returns_allocates_nothing reference_backend op_add_
              call_binary
              (cpu_fallback_until reference_backend op_add_ 0 call_binary).2
              relocation_binary) as (Hheap & _).
  - vm_compute; reflexivity.
  - intros [|idx] schema_ret t Hret Hslot Hd.
    + inversion Hret; subst schema_ret. reflexivity.
    + destruct idx; discriminate.
  - exact Hheap.
Defined.



Lemma windows_must_fit_the_stack_witness :
  cpu_fallback reference_backend op_add_ (state0 [IVTensor (TensorRef 0)])
  = (inl OutOfBounds, state0 [IVTensor (TensorRef 0)]).
Proof.
  destruct (windows_must_fit_the_stack reference_backend op_add_
              (state0 [IVTensor (TensorRef 0)])) as [Hshort _].
  apply Hshort. vm_compute; lia.
Defined.

Section PassThrough.

Context (B : Backend).

Lemma forM_identity {A} (f : A -> M unit) (l : list A) (s : State) :
  (forall x, x ∈ l -> f x s = (inr tt, s)) ->
  forM l f s = (inr tt, s).
Proof.
  induction l as [|x l IH]; intros Hf; [reflexivity|].
  rewrite forM_cons, (bind_inr _ _ _ _ _ (Hf x ltac:(left))).
  apply IH. intros y Hy. apply Hf. now right.
Qed.

(** When no tensor-valued argument is annotated Write and the host kernel
    leaves no defined tensor in the return window, steps 3 and 4 do nothing:
    the call returns in the very state in which the host kernel returned. *)
Theorem call_without_tensor_results_ends_as_kernel_left_it
    (op : OperatorHandle) (s0 s1 s2 : State) (r : Relocation) :
  let rb := length (stack s2) - length (returns (schema op)) in
  relocate_inputs B op s0 = (inr r, s1) ->
  call_redispatchBoxed B op s1 = (inr tt, s2) ->
  (forall k t schema_arg,
     argument_window op s0 !! k = Some (IVTensor t) ->
     arguments (schema op) !! k = Some schema_arg ->
     is_write (alias_info schema_arg) = false) ->
  length (returns (schema op)) <= length (stack s2) ->
  (forall idx t, idx < length (returns (schema op)) ->
     stack s2 !! (rb + idx) = Some (IVTensor t) -> defined t = false) ->
  cpu_fallback B op s0 = (inr tt, s2).
Proof.
  intros rb H1 H2 Hnone Hfit Hret.
  pose proof (copy_back_without_write_tensor_argument_aux B op s0 s1 r H1 Hnone) as Hid.
  unfold cpu_fallback.
  rewrite (bind_inr _ _ _ _ _ H1), (bind_inr _ _ _ _ _ H2), (bind_inr _ _ _ _ _ (Hid s2)).
  unfold resolve_returns, resolve_returns_upto. unfold bind at 1. unfold last_begin.
  destruct (decide _); [|lia]. fold rb.
  apply forM_identity. intros idx Hidx. apply elem_of_seq in Hidx.
  destruct (lookup_lt_is_Some_2 (stack s2) (rb + idx)) as [v Hv]; [unfold rb; lia|].
  apply (resolve_return_skips B op r rb idx s2 v Hv).
  intros t ->. apply (Hret idx t); [lia|exact Hv].
Qed.

End PassThrough.

Lemma call_without_tensor_results_ends_as_kernel_left_it_witness :
  (cpu_fallback numel_backend op_numel call_unary).1 = inr tt
  /\ stack (cpu_fallback numel_backend op_numel call_unary).2 = [IVInt 7; IVInt 3].
Proof.
  rewrite (call_without_tensor_results_ends_as_kernel_left_it numel_backend
             op_numel call_unary
             (relocate_inputs numel_backend op_numel call_unary).2
             (call_redispatchBoxed numel_backend op_numel
                (relocate_inputs numel_backend op_numel call_unary).2).2
             {| tensor_args := [TensorRef 0];
                tensor_args_indices := [0];
                cpu_tensors := [TensorRef 2] |}).
  - split; reflexivity.
  - vm_compute; reflexivity.
  - vm_compute; reflexivity.
  - intros [|[|k]] t schema_arg Hk Hsa; vm_compute in Hk, Hsa; try discriminate.
    inversion Hsa; subst schema_arg. reflexivity.
  - vm_compute; lia.
  - intros [|idx] t Hidx Hslot; vm_compute in Hidx, Hslot; [discriminate|lia].
Defined.
